(** * In-Your-Face: the deterministic geometry and seeding core

    A shallow embedding of the TypeScript sources
    [utils/indicators.ts], [utils/hashing.ts], [logic/regions.ts],
    [logic/voronoi.ts], [utils/image-processor.ts] (the affine warp) and the
    seed-count expressions of [components/PreviewCanvas.tsx].

    Conventions of the embedding.
    - A JavaScript [number] that carries a measurement (a coordinate, a
      magnitude, an indicator value) is an exact rational [Q]: the
      development reasons about the arithmetic the code writes down, not
      about binary64 rounding, and [Q] has neither NaN nor infinities.
    - A [number] that the code uses as an integer (a priority, a seed, a
      loop counter, a seed count) is a [Z] or a [nat]; the 32-bit coercions
      of the bit operators are written out.
    - Objects that the code copies or mutates in place (arrays handed to
      [seededShuffle], the region templates read by [getDynamicRegions])
      live in an explicit store, so that aliasing and freshness are part of
      the statements. *)

From Stdlib Require Import QArith Qround Qabs Lqa ZArith Lia String Ascii.
From Stdlib Require Import Permutation Sorted.
From stdpp Require Import base option list gmap.

Local Open Scope Q_scope.

(** ** JavaScript numbers *)

Module JS.

(** [a < b] and [a > b] on numbers, as booleans. *)
Definition ltb (a b : Q) : bool := negb (Qle_bool b a).
Definition gtb (a b : Q) : bool := ltb b a.
Definition leb (a b : Q) : bool := Qle_bool a b.

(** [Math.min], [Math.max], [Math.abs], [Math.ceil], [Math.floor]. *)
Definition Math_min (a b : Q) : Q := if ltb b a then b else a.
Definition Math_max (a b : Q) : Q := if ltb a b then b else a.
Definition Math_abs (a : Q) : Q := Qabs a.
Definition Math_ceil (a : Q) : Z := Qceiling a.
Definition Math_floor (a : Q) : Z := Qfloor a.

(** The 32-bit coercions behind [|], [^], [>>>] and [Math.imul]. *)
Definition two32 : Z := 4294967296.
Definition ToUint32 (n : Z) : Z := (n mod two32)%Z.
Definition ToInt32 (n : Z) : Z :=
  let u := ToUint32 n in
  if (2147483648 <=? u)%Z then (u - two32)%Z else u.
Definition xor32 (a b : Z) : Z := ToInt32 (Z.lxor (ToInt32 a) (ToInt32 b)).
Definition or32 (a b : Z) : Z := ToInt32 (Z.lor (ToInt32 a) (ToInt32 b)).
Definition ushr (a k : Z) : Z := Z.shiftr (ToUint32 a) k.
Definition imul (a b : Z) : Z := ToInt32 (ToInt32 a * ToInt32 b).

(** The trigonometric part of [Math], which has no rational model: the
    functions the code calls are taken as an interface. *)
Class Trig := {
  Math_PI : Q;
  Math_cos : Q -> Q;
  Math_sin : Q -> Q
}.

(** [a << k] on 32-bit integers. *)
Definition shl32 (a k : Z) : Z := ToInt32 (Z.shiftl (ToInt32 a) k).

(** Strings are lists of code units below 256 ([ascii]); the strings the
    code formats and parses (colour codes) are of that kind. *)
Definition code (c : ascii) : Z := Z.of_N (N_of_ascii c).











End JS.
Import JS.

(** ** utils/indicators.ts *)

Module Indicators.

Inductive Category := growth | stability | social.

Record Indicator := {
  id : string;
  name : string;
  current : Q;
  min : Q;
  max : Q;
  unit : string;
  category : Category
}.

(** [normalizeIndicator]: the midpoint for a degenerate range, otherwise
    the position of [current] in the range, clamped to [0,1]. *)
Definition normalizeIndicator (indicator : Indicator) : Q :=
  let current := current indicator in
  let min := min indicator in
  let max := max indicator in
  if leb max min then 0.5
  else
    let normalized := (current - min) / (max - min) in
    Math_max 0 (Math_min 1 normalized).

#[global] Instance Category_eq_dec : EqDecision Category.
Proof. solve_decision. Defined.

Inductive PaletteType := Neutral | Vibrant | Monochrome.

#[global] Instance PaletteType_eq_dec : EqDecision PaletteType.
Proof. solve_decision. Defined.

Record Palette := { palette_name : PaletteType; colors : list string }.

Definition PALETTES : list Palette := [
  {| palette_name := Neutral;
     colors := ["#4A5568"; "#718096"; "#A0AEC0"; "#CBD5E0"; "#EDF2F7";
                "#2D3748"]%string |};
  {| palette_name := Vibrant;
     colors := ["#FF5733"; "#33FF57"; "#3357FF"; "#F333FF"; "#FF33A1";
                "#33FFF3"]%string |};
  {| palette_name := Monochrome;
     colors := ["#000000"; "#333333"; "#666666"; "#999999"; "#CCCCCC";
                "#FFFFFF"]%string |}
].

(** [getColorFromPalette]: [None] is the [undefined] of an index outside
    the colour list. *)
Definition getColorFromPalette (paletteName : PaletteType)
    (normalizedValue : Q) : option string :=
  palette ← match List.find (fun p => bool_decide (palette_name p = paletteName))
                    PALETTES with
            | Some p => Some p
            | None => PALETTES !! 0%nat
            end;
  let index :=
    Math_floor (normalizedValue
                * inject_Z (Z.of_nat (length (colors palette)) - 1)) in
  if (index <? 0)%Z then None else colors palette !! Z.to_nat index.

(** The three channels of [getIndicatorColor] before the final clamp: the
    colour family of the indicator, then the palette modifier. *)
Definition indicatorChannels_raw (indicator : Indicator) (normalizedValue : Q)
    (palette : PaletteType) : Z * Z * Z :=
  let fl (v : Q) : Z := Math_floor v in
  let nv := normalizedValue in
  let '(r, g, b) :=
    if String.eqb (id indicator) "gdp"
       || bool_decide (category indicator = growth) then
      let r := fl (50 * (1 - nv)) in
      let g := fl (100 + 100 * nv) in
      let b := fl (200 + 55 * nv) in
      if bool_decide (palette = Vibrant)
      then (0%Z, fl (inject_Z g * 1.2), 255%Z) else (r, g, b)
    else if String.eqb (id indicator) "infl"
            || String.eqb (id indicator) "inflation_vol"
            || bool_decide (category indicator = stability) then
      let r := fl (200 + 55 * nv) in
      let g := fl (100 * (1 - nv)) in
      let b := fl (50 * (1 - nv)) in
      if bool_decide (palette = Vibrant)
      then (255%Z, fl (inject_Z g * 0.8), 0%Z) else (r, g, b)
    else if String.eqb (id indicator) "gini"
            || bool_decide (category indicator = social) then
      let r := fl (150 + 100 * nv) in
      let g := fl (50 * (1 - nv)) in
      let b := fl (150 + 100 * nv) in
      if bool_decide (palette = Vibrant)
      then (200%Z, 0%Z, 255%Z) else (r, g, b)
    else
      let v := fl (180 + 75 * nv) in
      (v, fl (inject_Z v * 0.95), fl (inject_Z v * 0.9)) in
  let gray :=
    fl (0.299 * inject_Z r + 0.587 * inject_Z g + 0.114 * inject_Z b) in
  match palette with
  | Monochrome => (gray, gray, gray)
  | Neutral =>
      (fl (inject_Z r * 0.7 + inject_Z gray * 0.3),
       fl (inject_Z g * 0.7 + inject_Z gray * 0.3),
       fl (inject_Z b * 0.7 + inject_Z gray * 0.3))
  | Vibrant => (r, g, b)
  end.

(** [Math.min(255, Math.max(0, r))] on each channel. *)
Definition indicatorChannels (indicator : Indicator) (normalizedValue : Q)
    (palette : PaletteType) : Z * Z * Z :=
  let '(r, g, b) := indicatorChannels_raw indicator normalizedValue palette in
  (Z.min 255 (Z.max 0 r), Z.min 255 (Z.max 0 g), Z.min 255 (Z.max 0 b)).







End Indicators.

(** ** utils/hashing.ts *)

Module Hashing.

(** One call of the closure returned by [createRNG]: the captured [seed]
    is the state; the call returns the sample and the updated state. *)
Definition rng_call (seed : Z) : Q * Z :=
  let seed := (seed + 1831565813)%Z in            (* seed += 0x6D2B79F5 *)
  let t := seed in
  let t := imul (xor32 t (ushr t 15)) (or32 t 1) in
  let t := xor32 t (t + imul (xor32 t (ushr t 7)) (or32 t 61))%Z in
  (inject_Z (ushr (xor32 t (ushr t 14)) 0) / inject_Z two32, seed).

Definition createRNG (seed : Z) : Z := seed.

Section Shuffle.
Context {T : Type}.

(** Arrays are objects in a store; a reference is a [positive]. *)
Abbreviation array_store := (gmap positive (list T)).

(** [[result[i], result[j]] = [result[j], result[i]]] on the array value.
    Both reads have to hit an element: a read past the end would yield
    [undefined], which is no [T]; the model stops there. *)
Definition swap (result : list T) (i j : nat) : option (list T) :=
  match result !! j, result !! i with
  | Some rj, Some ri => Some (<[j := ri]> (<[i := rj]> result))
  | _, _ => None
  end.

(** The [for (let i = result.length - 1; i > 0; i--)] loop, entered with
    counter [i]; [rng] is the generator state, [s] the store. *)
Fixpoint shuffle_loop (result : positive) (i : nat) (rng : Z)
    (s : array_store) : option array_store :=
  match i with
  | O => Some s
  | S i' =>
      let '(r, rng) := rng_call rng in
      let j := Z.to_nat (Math_floor (r * inject_Z (Z.of_nat i + 1))) in
      arr ← s !! result;
      arr' ← swap arr i j;
      shuffle_loop result i' rng (<[result := arr']> s)
  end.

(** [seededShuffle]: [const result = [...array]] allocates a fresh
    array, the loop permutes it in place, and its reference is returned. *)
Definition seededShuffle (array : positive) (seed : Z) (s : array_store)
    : option (positive * array_store) :=
  arr ← s !! array;
  let result := fresh (dom s) in
  let s := <[result := arr]> s in
  let rng := createRNG seed in
  s ← shuffle_loop result (length arr - 1) rng s;
  Some (result, s).
End Shuffle.

(** [hashString]; [str] is the string as its list of code units, which is
    what [charCodeAt] reads. *)
Definition hash_step (hash char : Z) : Z :=
  let hash := (shl32 hash 5 - hash + char)%Z in    (* ((hash << 5) - hash) + char *)
  or32 hash 0.                                     (* hash |= 0 *)

Definition hashString (str : list Z) : Z :=
  Z.abs (fold_left hash_step str 0%Z).

(** The code units of a string literal. *)
Fixpoint code_units (s : string) : list Z :=
  match s with
  | EmptyString => []
  | String c rest => code c :: code_units rest
  end.


End Hashing.

(** ** logic/regions.ts *)

Module Regions.

Inductive RegionType :=
  | Forehead | Nose | Eyes | Mouth | Cheeks | Chin | Hair | Neck | Background.

Inductive Tier := primary | secondary | auxiliary.

Record Point := { x : Q; y : Q }.

Record Region := {
  id : RegionType;
  priority : Z;
  polygon : list Point;
  tier : Tier
}.

#[global] Instance RegionType_eq_dec : EqDecision RegionType.
Proof. solve_decision. Defined.

#[global] Instance Tier_eq_dec : EqDecision Tier.
Proof. solve_decision. Defined.

Definition pt (a b : Q) : Point := {| x := a; y := b |}.

Definition FACE_REGIONS : list Region := [
  {| id := Forehead; tier := primary; priority := 1;
     polygon := [pt 0.3 0.1; pt 0.7 0.1; pt 0.8 0.25; pt 0.2 0.25] |};
  {| id := Eyes; tier := primary; priority := 2;
     polygon := [pt 0.2 0.25; pt 0.8 0.25; pt 0.8 0.45; pt 0.2 0.45] |};
  {| id := Nose; tier := primary; priority := 3;
     polygon := [pt 0.4 0.25; pt 0.6 0.25; pt 0.65 0.6; pt 0.35 0.6] |};
  {| id := Mouth; tier := primary; priority := 4;
     polygon := [pt 0.3 0.6; pt 0.7 0.6; pt 0.75 0.75; pt 0.25 0.75] |};
  {| id := Background; tier := primary; priority := 0;
     polygon := [pt 0 0; pt 1 0; pt 1 1; pt 0 1] |};
  {| id := Cheeks; tier := secondary; priority := 5;
     polygon := [pt 0.15 0.25; pt 0.35 0.6; pt 0.65 0.6; pt 0.85 0.25] |};
  {| id := Chin; tier := secondary; priority := 6;
     polygon := [pt 0.3 0.75; pt 0.7 0.75; pt 0.5 0.9] |};
  {| id := Hair; tier := auxiliary; priority := 7;
     polygon := [pt 0.1 0.0; pt 0.9 0.0; pt 1.0 0.5; pt 0.9 0.3; pt 0.1 0.3;
                 pt 0.0 0.5] |};
  {| id := Neck; tier := auxiliary; priority := 8;
     polygon := [pt 0.3 0.85; pt 0.7 0.85; pt 0.7 1.0; pt 0.3 1.0] |}
].

(** [getUnlockedRegions]: the tiers open at a given indicator count. *)
Definition unlocked (indicatorCount : Z) (region : Region) : bool :=
  if (indicatorCount <=? 3)%Z then bool_decide (tier region = primary)
  else if (indicatorCount <=? 6)%Z then
    bool_decide (tier region = primary) || bool_decide (tier region = secondary)
  else true.

Definition getUnlockedRegions (indicatorCount : Z) : list Region :=
  List.filter (unlocked indicatorCount) FACE_REGIONS.

(** The edge test of the ray cast, for the edge from [polygon[j]] to
    [polygon[i]]. [&&] short-circuits in the source; in [Q] the right
    operand is defined for every input, so evaluating it is harmless. *)
Definition intersect (point p_i p_j : Point) : bool :=
  let xi := x p_i in let yi := y p_i in
  let xj := x p_j in let yj := y p_j in
  negb (Bool.eqb (gtb yi (y point)) (gtb yj (y point)))
  && ltb (x point) ((xj - xi) * (y point - yi) / (yj - yi) + xi).

(** The body of [for (let i = 0, j = polygon.length - 1; i < polygon.length;
    j = i++)]: [p_j] is [polygon[j]], the list holds [polygon[i..]]. *)
Fixpoint ray_loop (point : Point) (p_j : Point) (rest : list Point)
    (inside : bool) : bool :=
  match rest with
  | [] => inside
  | p_i :: rest' =>
      ray_loop point p_i rest'
        (if intersect point p_i p_j then negb inside else inside)
  end.

Definition isPointInPolygon (point : Point) (polygon : list Point) : bool :=
  match last polygon with
  | None => false                       (* empty polygon: no iteration *)
  | Some p_last => ray_loop point p_last polygon false
  end.

(** [[...regions].sort((a, b) => b.priority - a.priority)]: the sort of
    ECMAScript is stable; it is modelled as a stable insertion sort by
    descending priority. *)
Fixpoint insert_by_priority (a : Region) (sorted : list Region) : list Region :=
  match sorted with
  | [] => [a]
  | b :: rest =>
      if (priority b - priority a <=? 0)%Z then a :: b :: rest
      else b :: insert_by_priority a rest
  end.

Definition sort_by_priority (regions : list Region) : list Region :=
  foldr insert_by_priority [] regions.

Fixpoint first_containing (point : Point) (sorted : list Region) : RegionType :=
  match sorted with
  | [] => Background
  | region :: rest =>
      if isPointInPolygon point (polygon region) then id region
      else first_containing point rest
  end.

(** [getRegionAt]: [dynamicRegions] is optional; an array, even an empty
    one, is truthy, so only its absence falls back to the unlocked set. *)
Definition candidates (indicatorCount : Z)
    (dynamicRegions : option (list Region)) : list Region :=
  match dynamicRegions with
  | Some rs => rs
  | None => getUnlockedRegions indicatorCount
  end.

Definition getRegionAt (x0 y0 : Q) (indicatorCount : Z)
    (dynamicRegions : option (list Region)) : RegionType :=
  let regions := candidates indicatorCount dynamicRegions in
  let sorted := sort_by_priority regions in
  first_containing (pt x0 y0) sorted.

(** The ids of the primary tier of the catalog. *)
Definition primary_ids : list RegionType :=
  id <$> List.filter (fun r => bool_decide (tier r = primary)) FACE_REGIONS.

(** *** The object store of [getDynamicRegions]

    Points, arrays and regions are JavaScript objects: [getDynamicRegions]
    copies some, mutates the copies through their references and returns
    others as they are. References are [positive]s into a [gmap]. *)

Abbreviation loc := positive.

Record RegionObj := {
  obj_id : RegionType;
  obj_priority : Z;
  obj_polygon : loc;
  obj_tier : Tier
}.

Inductive object :=
  | OPoint (p : Point)
  | OArray (elems : list loc)
  | ORegion (r : RegionObj).

Abbreviation heap := (gmap loc object).

(** Computations on the store that may get stuck (a [TypeError] on a
    dangling or ill-typed reference). *)
Definition M (A : Type) : Type := heap -> option (A * heap).

#[global] Instance M_ret : MRet M := fun A a h => Some (a, h).
#[global] Instance M_bind : MBind M := fun A B f m h =>
  match m h with
  | Some (a, h') => f a h'
  | None => None
  end.

Definition alloc (o : object) : M loc := fun h =>
  let l := fresh (dom h) in Some (l, <[l := o]> h).

Definition loadPoint (l : loc) : M Point := fun h =>
  match h !! l with Some (OPoint p) => Some (p, h) | _ => None end.

Definition loadArray (l : loc) : M (list loc) := fun h =>
  match h !! l with Some (OArray ls) => Some (ls, h) | _ => None end.

Definition loadRegion (l : loc) : M RegionObj := fun h =>
  match h !! l with Some (ORegion r) => Some (r, h) | _ => None end.

Definition storePoint (l : loc) (p : Point) : M unit := fun h =>
  match h !! l with
  | Some (OPoint _) => Some (tt, <[l := OPoint p]> h)
  | _ => None
  end.

(** [arr.map(f)]: a new array of the results. *)
Definition arrayMap (arr : loc) (f : loc -> M loc) : M loc :=
  ls ← loadArray arr;
  out ← mapM f ls;
  alloc (OArray out).

(** [arr.forEach(f)]. *)
Fixpoint iterM (f : loc -> M unit) (ls : list loc) : M unit :=
  match ls with
  | [] => mret tt
  | l :: ls' => _ ← f l; iterM f ls'
  end.

Definition forEach (arr : loc) (f : loc -> M unit) : M unit :=
  ls ← loadArray arr; iterM f ls.

(** A callback that assigns to the fields of its argument [p]; [cb] is the
    object after the assignments as a function of the object before. *)
Definition update (cb : Point -> Point) (p : loc) : M unit :=
  v ← loadPoint p; storePoint p (cb v).

(** The values of the points of an array, as [reduce] sees them. *)
Definition pointsOf (arr : loc) : M (list Point) :=
  ls ← loadArray arr; mapM loadPoint ls.

(** The [forEach] callbacks of the four distortions. *)
Definition forehead_cb (topY scaleY shiftY : Q) (p : Point) : Point :=
  {| x := x p; y := topY + (y p - topY) * scaleY - shiftY |}.

Definition mouth_cb (centerX centerY scaleX scaleY : Q) (p : Point) : Point :=
  {| x := centerX + (x p - centerX) * scaleX;
     y := centerY + (y p - centerY) * scaleY |}.

Definition chin_asym_cb (skewX : Q) (p : Point) : Point :=
  let sideFactor := if gtb (x p) 0.5 then 1.5 else 0.5 in
  {| x := x p + (y p - 0.75) * skewX * sideFactor; y := y p |}.

Definition chin_cb (skewX : Q) (p : Point) : Point :=
  {| x := x p + (y p - 0.75) * skewX; y := y p |}.

Definition tilt_asym_cb (centerX centerY cos sin : Q) (p : Point) : Point :=
  let isLeft := ltb (x p) 0.5 in
  let scaleFactor := if isLeft then 1.2 else 0.9 in
  let dx := x p - centerX in
  let dy := y p - centerY in
  let rx := centerX + (dx * cos - dy * sin) in
  let ry := centerY + (dx * sin + dy * cos) in
  {| x := centerX + (rx - centerX) * scaleFactor; y := ry |}.

Definition tilt_cb (centerX centerY cos sin : Q) (p : Point) : Point :=
  let dx := x p - centerX in
  let dy := y p - centerY in
  {| x := centerX + (dx * cos - dy * sin);
     y := centerY + (dx * sin + dy * cos) |}.

Definition centerX_of (shiftedPolygon : list Point) : Q :=
  fold_left (fun acc p => acc + x p) shiftedPolygon 0
  / inject_Z (Z.of_nat (length shiftedPolygon)).

Definition centerY_of (shiftedPolygon : list Point) : Q :=
  fold_left (fun acc p => acc + y p) shiftedPolygon 0
  / inject_Z (Z.of_nat (length shiftedPolygon)).

(** The [if / else if] chain on [region.id]: which callback, if any, runs
    over [shiftedPolygon], whose point values on entry are given. *)
Definition distortion `{Trig} (region_id : RegionType) (magnitude : Q)
    (shiftedPolygon : list Point) : option (Point -> Point) :=
  match region_id with
  | Forehead =>
      let shiftY := (magnitude - 0.5) * 0.15 in
      let scaleY := 1.0 + (magnitude - 0.5) * 0.6 in
      let topY := fold_left (fun min p => Math_min min (y p)) shiftedPolygon 1 in
      Some (forehead_cb topY scaleY shiftY)
  | Mouth =>
      let sentiment := magnitude in
      let scaleX := 0.6 + sentiment * 0.8 in
      let scaleY := 0.8 + sentiment * 0.4 in
      let centerX := centerX_of shiftedPolygon in
      let centerY := centerY_of shiftedPolygon in
      Some (mouth_cb centerX centerY scaleX scaleY)
  | Chin =>
      let skewX := (magnitude - 0.5) * 0.2 in
      if gtb magnitude 0.5 then Some (chin_asym_cb skewX)
      else Some (chin_cb skewX)
  | Eyes | Cheeks =>
      let angleDeg := (magnitude - 0.5) * 30 in
      let angleRad := (angleDeg * Math_PI) / 180 in
      let cos := Math_cos angleRad in
      let sin := Math_sin angleRad in
      let centerX := centerX_of shiftedPolygon in
      let centerY := centerY_of shiftedPolygon in
      if gtb magnitude 0.6 then Some (tilt_asym_cb centerX centerY cos sin)
      else Some (tilt_cb centerX centerY cos sin)
  | _ => None
  end.

(** The callback that [FACE_REGIONS.map] runs on one template. *)
Definition dynamicRegion `{Trig} (regionMap : RegionType -> option Indicators.Indicator)
    (region : loc) : M loc :=
  r ← loadRegion region;
  match regionMap (obj_id r) with
  | None => mret region                          (* if (!indicator) return region *)
  | Some indicator =>
      let magnitude := Indicators.normalizeIndicator indicator in
      spread ← (elems ← loadArray (obj_polygon r); alloc (OArray elems));
      shiftedPolygon ← arrayMap spread (fun p => v ← loadPoint p; alloc (OPoint v));
      vals ← pointsOf shiftedPolygon;
      _ ← match distortion (obj_id r) magnitude vals with
          | Some cb => forEach shiftedPolygon (update cb)
          | None => mret tt
          end;
      alloc (ORegion {| obj_id := obj_id r; obj_priority := obj_priority r;
                        obj_polygon := shiftedPolygon; obj_tier := obj_tier r |})
  end.

(** [getDynamicRegions]; [face] is the reference held by the module
    constant [FACE_REGIONS]. The parameter [indicators] is not read. *)
Definition getDynamicRegions `{Trig} (face : loc) (indicators : list Indicators.Indicator)
    (regionMap : RegionType -> option Indicators.Indicator) : M loc :=
  arrayMap face (dynamicRegion regionMap).

(** Reading object graphs back as values. *)
Definition pointAt (h : heap) (l : loc) : option Point :=
  match h !! l with Some (OPoint p) => Some p | _ => None end.

Definition arrayAt (h : heap) (l : loc) : option (list loc) :=
  match h !! l with Some (OArray ls) => Some ls | _ => None end.

Definition polygonAt (h : heap) (l : loc) : option (list Point) :=
  ls ← arrayAt h l; mapM (pointAt h) ls.

Definition regionAt (h : heap) (l : loc) : option Region :=
  match h !! l with
  | Some (ORegion r) =>
      pts ← polygonAt h (obj_polygon r);
      Some {| id := obj_id r; priority := obj_priority r; polygon := pts;
              tier := obj_tier r |}
  | _ => None
  end.

Definition regionsAt (h : heap) (l : loc) : option (list Region) :=
  ls ← arrayAt h l; mapM (regionAt h) ls.

(** Evaluating the array literal of [FACE_REGIONS] at module load. *)
Definition newRegion (r : Region) : M loc :=
  pts ← mapM (fun p => alloc (OPoint p)) (polygon r);
  arr ← alloc (OArray pts);
  alloc (ORegion {| obj_id := id r; obj_priority := priority r;
                    obj_polygon := arr; obj_tier := tier r |}).

Definition newRegions (rs : list Region) : M loc :=
  ls ← mapM newRegion rs; alloc (OArray ls).

(** The region a template turns into, as a value. *)
Definition dynamicRegionOf `{Trig} (regionMap : RegionType -> option Indicators.Indicator)
    (r : Region) : Region :=
  match regionMap (id r) with
  | None => r
  | Some indicator =>
      let pts :=
        match distortion (id r) (Indicators.normalizeIndicator indicator)
                (polygon r) with
        | Some cb => cb <$> polygon r
        | None => polygon r
        end in
      {| id := id r; priority := priority r; polygon := pts; tier := tier r |}
  end.

(** Points and polygons up to the equality of [Q], and up to a tolerance. *)
Definition same_point (p q : Point) : Prop := x p == x q /\ y p == y q.

Definition close (eps : Q) (poly poly' : list Point) : Prop :=
  Forall2 (fun p q => Qabs (x p - x q) < eps /\ Qabs (y p - y q) < eps)
    poly poly'.

(** [poly] is the polygon of the Chin region that [getDynamicRegions]
    derives from the catalog when the indicator mapped to Chin has
    magnitude [m]. *)
Definition ChinPolygon (m : Q) (poly : list Point) : Prop :=
  exists (T : Trig) (h : heap) (face : loc)
         (indicators : list Indicators.Indicator)
         (regionMap : RegionType -> option Indicators.Indicator)
         (indicator : Indicators.Indicator)
         (out : loc) (h' : heap) (dyn : list Region) (chin : Region),
    regionsAt h face = Some FACE_REGIONS
    /\ regionMap Chin = Some indicator
    /\ Indicators.normalizeIndicator indicator == m
    /\ getDynamicRegions face indicators regionMap h = Some (out, h')
    /\ regionsAt h' out = Some dyn
    /\ chin ∈ dyn /\ id chin = Chin /\ polygon chin = poly.

End Regions.

(** ** logic/voronoi.ts *)

Module Voronoi.
Import Regions.

Record Bounds := { width : Q; height : Q }.

(** The [while (points.length < count && attempts < maxAttempts)] loop.
    [fuel] bounds the number of iterations the model may run; [None] means
    the fuel ran out with the loop condition still true. The final value of
    [attempts] is returned next to [points]. *)
Fixpoint seeds_loop (fuel : nat) (count : Z) (polygon : list Point)
    (bounds : Bounds) (magnitude : Q) (maxAttempts : Z)
    (rng : Z) (points : list Point) (attempts : Z) : option (list Point * Z) :=
  if ((Z.of_nat (length points) <? count) && (attempts <? maxAttempts))%Z then
    match fuel with
    | O => None
    | S fuel' =>
        let '(x0, rng) := Hashing.rng_call rng in
        let '(y0, rng) := Hashing.rng_call rng in
        if isPointInPolygon (pt x0 y0) polygon then
          let '(r1, rng) := Hashing.rng_call rng in
          let jitterX := (r1 - 0.5) * magnitude * 0.1 in
          let '(r2, rng) := Hashing.rng_call rng in
          let jitterY := (r2 - 0.5) * magnitude * 0.1 in
          let p := pt ((x0 + jitterX) * width bounds)
                      ((y0 + jitterY) * height bounds) in
          seeds_loop fuel' count polygon bounds magnitude maxAttempts rng
            (points ++ [p]) (attempts + 1)
        else
          seeds_loop fuel' count polygon bounds magnitude maxAttempts rng
            points (attempts + 1)
    end
  else Some (points, attempts).

Definition generateClippedSeeds (fuel : nat) (count : Z) (polygon : list Point)
    (bounds : Bounds) (seed : Z) (magnitude : Q) : option (list Point) :=
  let rng := Hashing.createRNG seed in
  let maxAttempts := (count * 5)%Z in
  fst <$> seeds_loop fuel count polygon bounds magnitude maxAttempts rng [] 0.






(** Where a seed comes from: a candidate [c] of the unit square that the
    polygon accepted, moved by a jitter of at most [magnitude * 0.05] per
    axis and scaled to the bounds. *)
Definition seed_from (polygon : list Point) (bounds : Bounds) (magnitude : Q)
    (p : Point) : Prop :=
  exists (c : Point) (jx jy : Q),
    isPointInPolygon c polygon = true
    /\ 0 <= x c < 1 /\ 0 <= y c < 1
    /\ - (magnitude * 0.05) <= jx <= magnitude * 0.05
    /\ - (magnitude * 0.05) <= jy <= magnitude * 0.05
    /\ p = pt ((x c + jx) * width bounds) ((y c + jy) * height bounds).

End Voronoi.

(** ** utils/image-processor.ts: the affine warp *)

Module ImageProcessor.
Import Regions.

(** The calls that [warpCaricature] makes on the 2D context, in order. *)
Inductive CanvasCall :=
  | fillRect (x0 y0 w h : Q)
  | save
  | beginPath
  | moveTo (px py : Q)
  | lineTo (px py : Q)
  | closePath
  | clip
  | setTransform (a b c d e f : Q)
  | drawImage (dx dy : Q)
  | restore.

Fixpoint clipPath (width height : Q) (j : nat) (polygon : list Point)
    : list CanvasCall :=
  match polygon with
  | [] => []
  | p :: rest =>
      let px := x p * width in
      let py := y p * height in
      (if decide (j = 0%nat) then moveTo px py else lineTo px py)
        :: clipPath width height (S j) rest
  end.

(** The body of [sourceRegions.forEach((sRegion, i) => ...)] for one
    region: the canvas calls it makes, or [None] for the [TypeError] of
    reading a field of [undefined]. *)
Definition warpRegion (width height : Q) (sRegion : Region)
    (tRegion : option Region) : option (list CanvasCall) :=
  if decide (id sRegion = Background) then Some [] else
  tRegion ← tRegion;
  p0s ← polygon sRegion !! 0%nat;
  p1s ← polygon sRegion !! 1%nat;
  p2s ← polygon sRegion !! 2%nat;
  p0t ← polygon tRegion !! 0%nat;
  p1t ← polygon tRegion !! 1%nat;
  p2t ← polygon tRegion !! 2%nat;
  let x0s := x p0s * width in let y0s := y p0s * height in
  let x1s := x p1s * width in let y1s := y p1s * height in
  let x2s := x p2s * width in let y2s := y p2s * height in
  let x0t := x p0t * width in let y0t := y p0t * height in
  let x1t := x p1t * width in let y1t := y p1t * height in
  let x2t := x p2t * width in let y2t := y p2t * height in
  let denom := x0s * (y1s - y2s) - x1s * (y0s - y2s) + x2s * (y0s - y1s) in
  if ltb (Math_abs denom) 0.0001 then Some [] else
  (* the constants [a] and [c] computed here from [denom] are never read *)
  let det := x0s * (y1s - y2s) - y0s * (x1s - x2s) + (x1s * y2s - x2s * y1s) in
  if ltb (Math_abs det) 0.001 then Some [] else
  let idet := 1 / det in
  let m00 := (y1s - y2s) * idet in
  let m01 := (y2s - y0s) * idet in
  let m02 := (y0s - y1s) * idet in
  let m10 := (x2s - x1s) * idet in
  let m11 := (x0s - x2s) * idet in
  let m12 := (x1s - x0s) * idet in
  let m20 := (x1s * y2s - x2s * y1s) * idet in
  let m21 := (x2s * y0s - x0s * y2s) * idet in
  let m22 := (x0s * y1s - x1s * y0s) * idet in
  let a_ := m00 * x0t + m01 * x1t + m02 * x2t in
  let c_ := m10 * x0t + m11 * x1t + m12 * x2t in
  let e_ := m20 * x0t + m21 * x1t + m22 * x2t in
  let b_ := m00 * y0t + m01 * y1t + m02 * y2t in
  let d_ := m10 * y0t + m11 * y1t + m12 * y2t in
  let f_ := m20 * y0t + m21 * y1t + m22 * y2t in
  Some ([save; beginPath]
        ++ clipPath width height 0 (polygon tRegion)
        ++ [closePath; clip; setTransform a_ b_ c_ d_ e_ f_; drawImage 0 0;
            restore]).

Fixpoint warp_each (width height : Q) (i : nat) (sourceRegions : list Region)
    (targetRegions : list Region) : option (list CanvasCall) :=
  match sourceRegions with
  | [] => Some []
  | sRegion :: rest =>
      calls ← warpRegion width height sRegion (targetRegions !! i);
      later ← warp_each width height (S i) rest targetRegions;
      Some (calls ++ later)
  end.

(** The drawing done by [warpCaricature] on its canvas once the image has
    loaded: a white fill, then the regions in catalog order. *)
Definition warpCaricature (width height : Q) (sourceRegions : list Region)
    (targetRegions : list Region) : option (list CanvasCall) :=
  calls ← warp_each width height 0 sourceRegions targetRegions;
  Some (fillRect 0 0 width height :: calls).

(** Twice the signed area of the triangle [p0 p1 p2] in pixel space: zero
    exactly when the three vertices are collinear. *)
Definition cross_px (width height : Q) (p0 p1 p2 : Point) : Q :=
  (x p1 * width - x p0 * width) * (y p2 * height - y p0 * height)
  - (x p2 * width - x p0 * width) * (y p1 * height - y p0 * height).

Definition collinear (p0 p1 p2 : Point) : Prop :=
  (x p1 - x p0) * (y p2 - y p0) - (x p2 - x p0) * (y p1 - y p0) == 0.

(** The first three vertices of a region's polygon are collinear. *)
Definition triple_collinear (r : Region) : Prop :=
  match polygon r with
  | p0 :: p1 :: p2 :: _ => collinear p0 p1 p2
  | _ => False
  end.

(** The canvas size that [downscaleImage] computes from the image size. *)
Definition downscaleImage_size (width height maxDim : Q) : Z * Z :=
  let '(width, height) :=
    if gtb width height then
      if gtb width maxDim then (maxDim, height * (maxDim / width))
      else (width, height)
    else
      if gtb height maxDim then (width * (maxDim / height), maxDim)
      else (width, height) in
  (Math_floor width, Math_floor height).


Definition is_setTransform (call : CanvasCall) : bool :=
  match call with setTransform _ _ _ _ _ _ => true | _ => false end.

Definition is_save (call : CanvasCall) : bool :=
  match call with save => true | _ => false end.

Definition is_restore (call : CanvasCall) : bool :=
  match call with restore => true | _ => false end.

Definition is_drawImage (call : CanvasCall) : bool :=
  match call with drawImage _ _ => true | _ => false end.

End ImageProcessor.

(** ** components/PreviewCanvas.tsx: the seed counts *)

Module PreviewCanvas.

(** [const count = Math.ceil(magnitude * 10) + 2] in [applyTransformations]. *)
Definition applyTransformations_count (magnitude : Q) : Z :=
  (Math_ceil (magnitude * 10) + 2)%Z.

(** [const count = Math.ceil(magnitude * 20) + 5] in [exportPNG]. *)
Definition exportPNG_count (magnitude : Q) : Z :=
  (Math_ceil (magnitude * 20) + 5)%Z.

(** [indicator ? normalizeIndicator(indicator) : 0.5]. *)
Definition seedMagnitude (indicator : option Indicators.Indicator) : Q :=
  match indicator with
  | Some i => Indicators.normalizeIndicator i
  | None => 0.5
  end.

(** The assignments [map[region.id] = shuffled[i % shuffled.length]] of
    [FACE_REGIONS.forEach((region, i) => ...)], counted from index [i].
    With an empty [shuffled] the index is [NaN] and the value [undefined]. *)
Fixpoint assign_regions {T} (shuffled : list T) (i : nat)
    (regions : list Regions.Region) (map : Regions.RegionType -> option T)
    : Regions.RegionType -> option T :=
  match regions with
  | [] => map
  | region :: rest =>
      let v :=
        match length shuffled with
        | O => None
        | n => shuffled !! (i mod n)%nat
        end in
      assign_regions shuffled (S i) rest
        (fun rid => if decide (rid = Regions.id region) then v else map rid)
  end.

(** The [regionMap] memo: empty without a photo or without indicators,
    otherwise the round-robin assignment of the shuffled indicators. A
    photo is its data URL's code units; the empty string is falsy. *)
Definition regionMap {T} (photo : option (list Z)) (indicators : option positive)
    (seed : Z) (s : gmap positive (list T))
    : option ((Regions.RegionType -> option T) * gmap positive (list T)) :=
  match photo, indicators with
  | Some (_ :: _), Some indicators =>
      '(result, s) ← Hashing.seededShuffle indicators seed s;
      shuffled ← s !! result;
      Some (assign_regions shuffled 0 Regions.FACE_REGIONS (fun _ => None), s)
  | _, _ => Some (fun _ => None, s)
  end.

(** [const seed = photo ? hashString(photo) : 0]. *)
Definition photoSeed (photo : option (list Z)) : Z :=
  match photo with
  | Some (c :: str) => Hashing.hashString (c :: str)
  | _ => 0%Z
  end.

(** [(hashString(JSON.stringify(nearest)) % 100) / 100] for the serialised
    seed [str]. *)
Definition seedMag (str : list Z) : Q :=
  inject_Z (Z.rem (Hashing.hashString str) 100) / 100.

End PreviewCanvas.

(** ** components/Controls.tsx and App.tsx: the state updates *)

Module Controls.

(** [handleSliderChange]: the indicator list after a slider moved. *)
Definition handleSliderChange (indicators : list Indicators.Indicator)
    (id : string) (value : Q) : list Indicators.Indicator :=
  (fun ind =>
     if String.eqb (Indicators.id ind) id then
       {| Indicators.id := Indicators.id ind;
          Indicators.name := Indicators.name ind;
          Indicators.current := value;
          Indicators.min := Indicators.min ind;
          Indicators.max := Indicators.max ind;
          Indicators.unit := Indicators.unit ind;
          Indicators.category := Indicators.category ind |}
     else ind) <$> indicators.

End Controls.

Module App.

(** The updater that [handleCapture] hands to [setSnapshots]. *)
Definition capture {S} (prev : list S) (newSnap : S) : list S :=
  let updated := prev ++ [newSnap] in
  if (5 <? length updated)%nat then tail updated    (* updated.shift() *)
  else updated.

End App.

Import Indicators Hashing Regions Voronoi ImageProcessor PreviewCanvas.

(** ** Sample inputs *)

Module Samples.

(** The [gdp] entry of [MOCK_INDICATORS], at a chosen current value. *)
Definition gdp (c : Q) : Indicator :=
  {| Indicators.id := "gdp"; name := "GDP Growth Rate"; current := c;
     min := -5; max := 10; unit := "%"; category := growth |}.

(** An indicator with a degenerate range. *)
Definition flat (c : Q) : Indicator :=
  {| Indicators.id := "flat"; name := "Flat"; current := c;
     min := 3; max := 3; unit := "%"; category := stability |}.

(** A target whose first three vertices lie on the diagonal. *)
Definition flattened : Region :=
  {| Regions.id := Forehead; tier := primary; priority := 1;
     polygon := [pt 0.2 0.2; pt 0.4 0.4; pt 0.6 0.6; pt 0.2 0.25] |}.

Definition forehead : Region :=
  {| Regions.id := Forehead; tier := primary; priority := 1;
     polygon := [pt 0.3 0.1; pt 0.7 0.1; pt 0.8 0.25; pt 0.2 0.25] |}.

(** A source whose first three vertices lie on a horizontal line. *)
Definition level : Region :=
  {| Regions.id := Mouth; tier := primary; priority := 4;
     polygon := [pt 0.3 0.6; pt 0.5 0.6; pt 0.7 0.6; pt 0.25 0.75] |}.

(** An indicator whose magnitude is [m], for [m] in [0,1]. *)
Definition with_magnitude (m : Q) : Indicator :=
  {| Indicators.id := "infl"; name := "Inflation Rate"; current := m;
     min := 0; max := 1; unit := "%"; category := stability |}.

(** A rational stand-in for the trigonometric functions (second-order
    approximations near zero), where a concrete instance is needed. *)
Definition small_angle : Trig :=
  {| Math_PI := 3.14159265;
     Math_cos := fun a => 1 - a * a / 2;
     Math_sin := fun a => a |}.

(** The store after the module has evaluated [FACE_REGIONS], and the
    reference held by the constant. *)
Definition loaded : loc * heap :=
  default (1%positive, ∅) (newRegions FACE_REGIONS ∅).

Definition sample_map (rid : RegionType) : option Indicator :=
  match rid with
  | Forehead => Some (gdp 10)
  | Chin => Some (with_magnitude 0.5)
  | Eyes => Some (with_magnitude 0.7)
  | Background => Some (flat 7)
  | _ => None
  end.

(** A region map that assigns an indicator of magnitude [m] to Chin only. *)
Definition chin_only (m : Q) (rid : RegionType) : option Indicator :=
  match rid with
  | Chin => Some (with_magnitude m)
  | _ => None
  end.


End Samples.
Import Samples.

(** * Properties *)

(** ** Comparisons and clamping on [Q] *)

Lemma ltb_lt (a b : Q) : ltb a b = true <-> a < b.
Proof.
  unfold ltb. rewrite negb_true_iff, <- not_true_iff_false, Qle_bool_iff.
  split; [apply Qnot_le_lt | apply Qlt_not_le].
Qed.

Lemma ltb_ge (a b : Q) : ltb a b = false <-> b <= a.
Proof. unfold ltb. rewrite negb_false_iff. apply Qle_bool_iff. Qed.

Lemma leb_le (a b : Q) : leb a b = true <-> a <= b.
Proof. apply Qle_bool_iff. Qed.

Lemma leb_gt (a b : Q) : leb a b = false <-> b < a.
Proof.
  unfold leb. rewrite <- not_true_iff_false, Qle_bool_iff.
  split; [apply Qnot_le_lt | apply Qlt_not_le].
Qed.

Lemma ltb_cases (a b : Q) :
  (ltb a b = true /\ a < b) \/ (ltb a b = false /\ b <= a).
Proof.
  destruct (ltb a b) eqn:E; [left | right]; split; trivial.
  - now apply ltb_lt.
  - now apply ltb_ge.
Qed.

#[global] Instance ltb_proper : Proper (Qeq ==> Qeq ==> eq) ltb.
Proof.
  intros a a' Ha b b' Hb.
  destruct (ltb_cases a b) as [[-> H] | [-> H]]; symmetry.
  - apply ltb_lt. now rewrite <- Ha, <- Hb.
  - apply ltb_ge. now rewrite <- Ha, <- Hb.
Qed.

#[global] Instance leb_proper : Proper (Qeq ==> Qeq ==> eq) leb.
Proof.
  intros a a' Ha b b' Hb. unfold leb.
  destruct (Qle_bool a b) eqn:E; symmetry.
  - apply Qle_bool_iff in E. apply Qle_bool_iff. now rewrite <- Ha, <- Hb.
  - apply leb_gt in E. apply leb_gt. now rewrite <- Ha, <- Hb.
Qed.

Lemma Math_min_spec (a b : Q) :
  (b < a /\ Math_min a b = b) \/ (a <= b /\ Math_min a b = a).
Proof.
  unfold Math_min. destruct (ltb_cases b a) as [[-> H] | [-> H]]; auto.
Qed.

Lemma Math_max_spec (a b : Q) :
  (a < b /\ Math_max a b = b) \/ (b <= a /\ Math_max a b = a).
Proof.
  unfold Math_max. destruct (ltb_cases a b) as [[-> H] | [-> H]]; auto.
Qed.



(** ** C3: [normalizeIndicator] *)




(** ** C9: seed counts of the preview and of the export *)

(** C9. The preview count is [ceil(magnitude*10)+2] and the export count
    [ceil(magnitude*20)+5] (each ceiling being the least integer not below
    its argument); the export count is 5 at magnitude 0 and 25 at
    magnitude 1, and exceeds the preview count on all of [0,1]. *)
Theorem seed_counts_preview_export :
  (forall m : Q,
      inject_Z (applyTransformations_count m - 2) - 1 < m * 10
        <= inject_Z (applyTransformations_count m - 2)
      /\ inject_Z (exportPNG_count m - 5) - 1 < m * 20
        <= inject_Z (exportPNG_count m - 5))
  /\ exportPNG_count 0 = 5%Z
  /\ exportPNG_count 1 = 25%Z
  /\ (forall m : Q, 0 <= m <= 1 ->
        (applyTransformations_count m < exportPNG_count m)%Z).
Proof.
  unfold applyTransformations_count, exportPNG_count, Math_ceil.
  split; [| split; [reflexivity | split; [reflexivity |]]].
  - intros m.
    replace (Qceiling (m * 10) + 2 - 2)%Z with (Qceiling (m * 10)) by lia.
    replace (Qceiling (m * 20) + 5 - 5)%Z with (Qceiling (m * 20)) by lia.
    pose proof (Qle_ceiling (m * 10)) as A1.
    pose proof (Qceiling_lt (m * 10)) as A2.
    pose proof (Qle_ceiling (m * 20)) as B1.
    pose proof (Qceiling_lt (m * 20)) as B2.
    unfold Z.sub in A2, B2. rewrite inject_Z_plus in A2, B2.
    change (inject_Z (-1)) with (-(1)) in A2, B2.
    repeat split; try assumption; lra.
  - intros m [H0 H1].
    assert (Hle : (Qceiling (m * 10) <= Qceiling (m * 20))%Z)
      by (apply Qceiling_resp_le; lra).
    lia.
Qed.

Lemma seed_counts_preview_export_witness :
  (applyTransformations_count 0.5 < exportPNG_count 0.5)%Z.
Proof.
  apply (proj2 (proj2 (proj2 seed_counts_preview_export)) 0.5). lra.
Defined.

(** ** C5: the ray cast does not depend on where the vertex list starts *)

Section RayCast.
Variable point : Point.

Lemma ray_loop_flag (p_j : Point) (rest : list Point) (inside : bool) :
  ray_loop point p_j rest inside
  = xorb inside (ray_loop point p_j rest false).
Proof.
  revert p_j inside. induction rest as [| p_i rest IH]; intros p_j inside.
  - simpl. now rewrite xorb_false_r.
  - cbn [ray_loop]. destruct (intersect point p_i p_j); cbn [negb].
    + rewrite (IH p_i (negb inside)), (IH p_i true).
      destruct inside, (ray_loop point p_i rest false); reflexivity.
    + apply IH.
Qed.

Lemma default_last_cons (d d' c : Point) (l : list Point) :
  default d (last (c :: l)) = default d' (last (c :: l)).
Proof.
  revert c. induction l as [| e l IH]; intros c; [reflexivity |].
  rewrite last_cons_cons. apply IH.
Qed.

(** Running the loop over [l ++ [a]]: first over [l], then one more edge
    from the last vertex reached. *)
Lemma ray_loop_snoc (p_j a : Point) (l : list Point) (inside : bool) :
  ray_loop point p_j (l ++ [a]) inside
  = ray_loop point (default p_j (last l)) [a] (ray_loop point p_j l inside).
Proof.
  revert p_j inside. induction l as [| b l IH]; intros p_j inside.
  - reflexivity.
  - change ((b :: l) ++ [a]) with (b :: (l ++ [a])).
    cbn [ray_loop]. rewrite IH.
    destruct l as [| c l]; [reflexivity |].
    rewrite last_cons_cons.
    now rewrite (default_last_cons b p_j).
Qed.

Lemma isPointInPolygon_rotate1 (a : Point) (l : list Point) :
  isPointInPolygon point (l ++ [a]) = isPointInPolygon point (a :: l).
Proof.
  unfold isPointInPolygon. rewrite last_snoc.
  destruct l as [| b l]; [reflexivity |].
  rewrite last_cons_cons.
  destruct (last (b :: l)) as [z |] eqn:Hz.
  2:{ apply last_None in Hz. discriminate. }
  rewrite ray_loop_snoc, Hz.
  change (default a (Some z)) with z.
  set (inner := ray_loop point a (b :: l) false).
  change (ray_loop point z [a] inner)
    with (if intersect point a z then negb inner else inner).
  change (ray_loop point z (a :: b :: l) false)
    with (ray_loop point a (b :: l)
            (if intersect point a z then true else false)).
  rewrite ray_loop_flag. fold inner.
  destruct (intersect point a z), inner; reflexivity.
Qed.

Lemma isPointInPolygon_drop_take (k : nat) (polygon : list Point) :
  isPointInPolygon point (drop k polygon ++ take k polygon)
  = isPointInPolygon point polygon.
Proof.
  revert polygon. induction k as [| k IH]; intros polygon.
  - now rewrite drop_0, take_0, app_nil_r.
  - destruct polygon as [| a l]; [reflexivity |].
    destruct (le_lt_dec k (length l)) as [Hk | Hk].
    + rewrite <- isPointInPolygon_rotate1, <- (IH (l ++ [a])).
      rewrite drop_app_le, take_app_le by lia.
      cbn [drop take]. now rewrite <- app_assoc.
    + cbn [drop take]. rewrite drop_ge, take_ge by lia. reflexivity.
Qed.

End RayCast.

(** C5. For every point and polygon, [isPointInPolygon] gives the same
    answer on every cyclic rotation of the vertex list. *)
Theorem isPointInPolygon_rotation_invariant
    (point : Point) (polygon : list Point) (k : nat) :
  isPointInPolygon point (rotate k polygon) = isPointInPolygon point polygon.
Proof. unfold rotate. apply isPointInPolygon_drop_take. Qed.

(** ** C6: what [getRegionAt] can return *)

Lemma insert_by_priority_perm (a : Region) (sorted : list Region) :
  insert_by_priority a sorted ≡ₚ a :: sorted.
Proof.
  induction sorted as [| b rest IH]; [reflexivity |].
  cbn [insert_by_priority].
  destruct (priority b - priority a <=? 0)%Z; [reflexivity |].
  rewrite IH. apply Permutation_swap.
Qed.

Lemma sort_by_priority_perm (regions : list Region) :
  sort_by_priority regions ≡ₚ regions.
Proof.
  unfold sort_by_priority.
  induction regions as [| a rest IH]; [reflexivity |].
  cbn [foldr]. rewrite insert_by_priority_perm. now rewrite IH.
Qed.

Lemma first_containing_elem (point : Point) (sorted : list Region) :
  first_containing point sorted = Background
  \/ exists region, region ∈ sorted /\ id region = first_containing point sorted.
Proof.
  induction sorted as [| region rest IH]; [now left |].
  cbn [first_containing].
  destruct (isPointInPolygon point (polygon region)).
  - right. exists region. split; [left | reflexivity].
  - destruct IH as [IH | (r & Hr & E)]; [now left |].
    right. exists r. split; [now right | exact E].
Qed.

Lemma getRegionAt_elem (x0 y0 : Q) (indicatorCount : Z)
    (dynamicRegions : option (list Region)) :
  getRegionAt x0 y0 indicatorCount dynamicRegions = Background
  \/ exists region,
       region ∈ candidates indicatorCount dynamicRegions
       /\ id region = getRegionAt x0 y0 indicatorCount dynamicRegions.
Proof.
  unfold getRegionAt.
  destruct (first_containing_elem (pt x0 y0)
              (sort_by_priority (candidates indicatorCount dynamicRegions)))
    as [H | (r & Hr & E)]; [now left |].
  right. exists r. split; [| exact E].
  now rewrite <- (sort_by_priority_perm _).
Qed.

Lemma unlocked_at_most_3 (indicatorCount : Z) (region : Region) :
  (indicatorCount <= 3)%Z ->
  region ∈ getUnlockedRegions indicatorCount ->
  region ∈ FACE_REGIONS /\ tier region = primary.
Proof.
  intros Hc Hin. unfold getUnlockedRegions in Hin.
  apply list_elem_of_In, filter_In in Hin. destruct Hin as [Hin Hu].
  split; [now apply list_elem_of_In |].
  unfold unlocked in Hu.
  destruct (Z.leb_spec indicatorCount 3); [| lia].
  now apply bool_decide_eq_true in Hu.
Qed.

(** C6, in the form that holds of the code. [getRegionAt] returns
    [Background] or the id of one of its candidates, which are the supplied dynamic regions or else the
    regions unlocked at the count; when no dynamic regions are supplied and
    the count is at most 3, it returns [Background] or the id of a
    primary-tier region of the catalog. *)
Theorem getRegionAt_in_candidates
    (x0 y0 : Q) (indicatorCount : Z) (dynamicRegions : option (list Region)) :
  (getRegionAt x0 y0 indicatorCount dynamicRegions
     ∈ Background :: (id <$> candidates indicatorCount dynamicRegions))
  /\ ((indicatorCount <= 3)%Z ->
      getRegionAt x0 y0 indicatorCount None ∈ Background :: primary_ids).
Proof.
  split.
  - destruct (getRegionAt_elem x0 y0 indicatorCount dynamicRegions)
      as [-> | (r & Hr & <-)]; [left |].
    right. apply list_elem_of_fmap. now exists r.
  - intros Hc.
    destruct (getRegionAt_elem x0 y0 indicatorCount None)
      as [-> | (r & Hr & <-)]; [left |].
    right. apply (unlocked_at_most_3 _ _ Hc) in Hr. destruct Hr as [Hr Ht].
    unfold primary_ids. apply list_elem_of_fmap. exists r. split; [reflexivity |].
    apply list_elem_of_In, filter_In. split; [now apply list_elem_of_In |].
    now apply bool_decide_eq_true.
Qed.

Lemma getRegionAt_in_candidates_witness :
  getRegionAt 0.5 0.95 3 None ∈ Background :: primary_ids.
Proof.
  apply (proj2 (getRegionAt_in_candidates 0.5 0.95 3 None)). lia.
Defined.

(** With dynamic regions supplied the count does not gate the tiers: at
    three indicators a point of the neck resolves to [Neck], an
    auxiliary-tier region. *)
Lemma getRegionAt_dynamic_ignores_count :
  ~ (forall (x0 y0 : Q) (indicatorCount : Z)
            (dynamicRegions : option (list Region)),
        (1 <= indicatorCount <= 3)%Z ->
        getRegionAt x0 y0 indicatorCount dynamicRegions
          ∈ Background :: primary_ids).
Proof.
  intros H.
  specialize (H 0.5 0.95 3%Z (Some FACE_REGIONS) ltac:(lia)).
  assert (E : getRegionAt 0.5 0.95 3 (Some FACE_REGIONS) = Neck)
    by (vm_compute; reflexivity).
  rewrite E in H. vm_compute in H.
  repeat (apply elem_of_cons in H; destruct H as [H | H]; [discriminate |]).
  now apply elem_of_nil in H.
Qed.

(** ** C8: [findNearestSeed] *)

Section NearestSeed.
Variable p : Point.



End NearestSeed.



(** ** C7: [generateClippedSeeds] stops within [count*5] attempts *)

Section ClippedSeeds.
Variables (count : Z) (polygon : list Point) (bounds : Bounds) (magnitude : Q).
Variable maxAttempts : Z.

Local Abbreviation loop fuel :=
  (seeds_loop fuel count polygon bounds magnitude maxAttempts).

(** From any state of the loop, [maxAttempts - attempts] iterations are
    enough; the counter ends within the cap and the list within [count]. *)
Lemma seeds_loop_terminates (fuel : nat) :
  forall (rng : Z) (points : list Point) (attempts : Z),
    (Z.to_nat (maxAttempts - attempts) <= fuel)%nat ->
    (length points <= Z.to_nat count)%nat ->
    exists points' attempts',
      loop fuel rng points attempts = Some (points', attempts')
      /\ (attempts <= attempts' <= Z.max attempts maxAttempts)%Z
      /\ (length points' <= Z.to_nat count)%nat
      /\ ((forall q, isPointInPolygon q polygon = false) -> points' = points).
Proof.
  induction fuel as [| fuel IH]; intros rng points attempts Hfuel Hlen;
    cbn [seeds_loop];
    destruct (Z.ltb_spec (Z.of_nat (length points)) count) as [Hc | Hc];
    destruct (Z.ltb_spec attempts maxAttempts) as [Ha | Ha];
    cbn [andb]; try (exists points, attempts; repeat split; auto; lia).
  destruct (rng_call rng) as [x0 rng1].
  destruct (rng_call rng1) as [y0 rng2].
  destruct (isPointInPolygon (pt x0 y0) polygon) eqn:Hin.
  + destruct (rng_call rng2) as [r1 rng3].
    destruct (rng_call rng3) as [r2 rng4].
    match goal with
    | |- context [seeds_loop _ _ _ _ _ _ ?r ?ps ?a] =>
        destruct (IH r ps a) as (ps' & a' & E & Ha' & Hl' & Hrej)
    end.
    * lia.
    * rewrite length_app. cbn [length]. lia.
    * exists ps', a'. split; [exact E |]. split; [lia |]. split; [exact Hl' |].
      intros Hnone. rewrite Hnone in Hin. discriminate.
  + destruct (IH rng2 points (attempts + 1)%Z)
      as (ps' & a' & E & Ha' & Hl' & Hrej); [lia | exact Hlen |].
    exists ps', a'. split; [exact E |]. split; [lia |]. auto.
Qed.

(** More fuel than needed does not change the result. *)
Lemma seeds_loop_fuel_mono (fuel : nat) :
  forall (fuel' : nat) (rng : Z) (points : list Point) (attempts : Z) r,
    (fuel <= fuel')%nat ->
    loop fuel rng points attempts = Some r ->
    loop fuel' rng points attempts = Some r.
Proof.
  induction fuel as [| fuel IH]; intros fuel' rng points attempts r Hle;
    cbn [seeds_loop].
  - destruct fuel'; cbn [seeds_loop];
      destruct ((Z.of_nat (length points) <? count)
                && (attempts <? maxAttempts))%Z; trivial; discriminate.
  - destruct fuel' as [| fuel']; [lia |]. cbn [seeds_loop].
    destruct ((Z.of_nat (length points) <? count)
              && (attempts <? maxAttempts))%Z; trivial.
    destruct (rng_call rng) as [x0 rng1].
    destruct (rng_call rng1) as [y0 rng2].
    destruct (isPointInPolygon (pt x0 y0) polygon).
    + destruct (rng_call rng2) as [r1 rng3].
      destruct (rng_call rng3) as [r2 rng4].
      apply IH. lia.
    + apply IH. lia.
Qed.

End ClippedSeeds.

(** C7. For every count, polygon, bounds, seed and magnitude the loop of
    [generateClippedSeeds] ends after at most [count*5] attempts
    ([count*5] iterations of fuel suffice, and any larger amount gives the
    same list); the list has at most [count] points; and when the polygon
    rejects the candidates the list stays empty, so it can hold fewer than
    [count] points. *)
Theorem generateClippedSeeds_terminates_bounded
    (count : Z) (polygon : list Point) (bounds : Bounds) (seed : Z)
    (magnitude : Q) (fuel : nat) :
  (Z.to_nat (count * 5) <= fuel)%nat ->
  exists (points : list Point) (attempts : Z),
    seeds_loop fuel count polygon bounds magnitude (count * 5)
      (createRNG seed) [] 0 = Some (points, attempts)
    /\ generateClippedSeeds fuel count polygon bounds seed magnitude
       = Some points
    /\ generateClippedSeeds (Z.to_nat (count * 5)) count polygon bounds seed
         magnitude = Some points
    /\ (0 <= attempts <= Z.max 0 (count * 5))%Z
    /\ (length points <= Z.to_nat count)%nat
    /\ ((forall q, isPointInPolygon q polygon = false) -> points = []).
Proof.
  intros Hfuel.
  destruct (seeds_loop_terminates count polygon bounds magnitude (count * 5)
              (Z.to_nat (count * 5)) (createRNG seed) [] 0)
    as (points & attempts & E & Ha & Hl & Hrej).
  { rewrite Z.sub_0_r. lia. }
  { cbn [length]. lia. }
  exists points, attempts.
  pose proof (seeds_loop_fuel_mono count polygon bounds magnitude (count * 5)
                _ fuel _ _ _ _ Hfuel E) as E'.
  unfold generateClippedSeeds. rewrite E, E'. cbn.
  repeat split; auto; lia.
Qed.

Lemma generateClippedSeeds_terminates_bounded_witness :
  exists (points : list Point) (attempts : Z),
    seeds_loop 20 3 [] {| width := 512; height := 512 |} 0.5 (3 * 5)
      (createRNG 42) [] 0 = Some (points, attempts)
    /\ generateClippedSeeds 20 3 [] {| width := 512; height := 512 |} 42 0.5
       = Some points
    /\ generateClippedSeeds (Z.to_nat (3 * 5)) 3 []
         {| width := 512; height := 512 |} 42 0.5 = Some points
    /\ (0 <= attempts <= Z.max 0 (3 * 5))%Z
    /\ (length points <= Z.to_nat 3)%nat
    /\ ((forall q, isPointInPolygon q [] = false) -> points = []).
Proof.
  apply (generateClippedSeeds_terminates_bounded 3 []
           {| width := 512; height := 512 |} 42 0.5 20).
  vm_compute. lia.
Defined.

(** ** C2: degenerate triples in the affine warp *)

Lemma denom_is_cross (x0 y0 x1 y1 x2 y2 : Q) :
  x0 * (y1 - y2) - x1 * (y0 - y2) + x2 * (y0 - y1)
  == (x1 - x0) * (y2 - y0) - (x2 - x0) * (y1 - y0).
Proof. ring. Qed.

Lemma det_is_cross (x0 y0 x1 y1 x2 y2 : Q) :
  x0 * (y1 - y2) - y0 * (x1 - x2) + (x1 * y2 - x2 * y1)
  == (x1 - x0) * (y2 - y0) - (x2 - x0) * (y1 - y0).
Proof. ring. Qed.

Lemma collinear_cross_px (width height : Q) (p0 p1 p2 : Point) :
  collinear p0 p1 p2 -> cross_px width height p0 p1 p2 == 0.
Proof.
  unfold collinear, cross_px. intros H.
  assert (E : (x p1 * width - x p0 * width) * (y p2 * height - y p0 * height)
              - (x p2 * width - x p0 * width)
                * (y p1 * height - y p0 * height)
              == width * height
                 * ((x p1 - x p0) * (y p2 - y p0)
                    - (x p2 - x p0) * (y p1 - y p0))) by ring.
  rewrite E, H. ring.
Qed.

(** C2, in the form that holds of the code. For a non-Background region
    with a target, the warp of the region makes no canvas call exactly when the first three source
    vertices are degenerate in pixel space (cross product below 0.001 in
    absolute value, in particular when they are collinear); the target
    triple plays no part in the decision. *)
Theorem warpRegion_skips_degenerate_source
    (width height : Q) (sRegion tRegion : Region)
    (p0 p1 p2 q0 q1 q2 : Point) (rest rest' : list Point) :
  id sRegion <> Background ->
  polygon sRegion = p0 :: p1 :: p2 :: rest ->
  polygon tRegion = q0 :: q1 :: q2 :: rest' ->
  (collinear p0 p1 p2 ->
   warpRegion width height sRegion (Some tRegion) = Some [])
  /\ (warpRegion width height sRegion (Some tRegion) = Some []
      <-> Qabs (cross_px width height p0 p1 p2) < 0.001).
Proof.
  intros Hid Hs Ht.
  assert (Hiff : warpRegion width height sRegion (Some tRegion) = Some []
                 <-> Qabs (cross_px width height p0 p1 p2) < 0.001).
  { unfold warpRegion. destruct (decide (id sRegion = Background)) as [E | _];
      [contradiction |].
    cbn [mbind option_bind]. rewrite Hs, Ht.
    cbn [mbind option_bind lookup list_lookup].
    rewrite (denom_is_cross (x p0 * width) (y p0 * height) (x p1 * width)
               (y p1 * height) (x p2 * width) (y p2 * height)).
    rewrite (det_is_cross (x p0 * width) (y p0 * height) (x p1 * width)
               (y p1 * height) (x p2 * width) (y p2 * height)).
    fold (cross_px width height p0 p1 p2). unfold Math_abs.
    destruct (ltb_cases (Qabs (cross_px width height p0 p1 p2)) 0.0001)
      as [[-> H1] | [-> H1]].
    - split; [lra | reflexivity].
    - destruct (ltb_cases (Qabs (cross_px width height p0 p1 p2)) 0.001)
        as [[-> H2] | [-> H2]].
      + split; [trivial | reflexivity].
      + split; [discriminate | lra]. }
  split; [| exact Hiff].
  intros Hcol. apply Hiff.
  rewrite (collinear_cross_px _ _ _ _ _ Hcol). reflexivity.
Qed.

Lemma warpRegion_skips_degenerate_source_witness :
  warpRegion 512 512 level (Some forehead) = Some [].
Proof.
  apply (proj1 (warpRegion_skips_degenerate_source 512 512 level forehead
                  (pt 0.3 0.6) (pt 0.5 0.6) (pt 0.7 0.6)
                  (pt 0.3 0.1) (pt 0.7 0.1) (pt 0.8 0.25)
                  [pt 0.25 0.75] [pt 0.2 0.25]
                  ltac:(discriminate) eq_refl eq_refl)).
  vm_compute. reflexivity.
Defined.

(** A collinear target triple does not skip the warp: the clip path and a
    singular transform are issued. *)
Lemma warpRegion_collinear_target_not_skipped :
  ~ (forall (width height : Q) (sRegion tRegion : Region),
        id sRegion <> Background ->
        triple_collinear sRegion \/ triple_collinear tRegion ->
        warpRegion width height sRegion (Some tRegion) = Some []).
Proof.
  intros H.
  specialize (H 512 512 forehead flattened ltac:(discriminate)).
  assert (Hcol : triple_collinear flattened) by (vm_compute; reflexivity).
  specialize (H (or_intror Hcol)).
  vm_compute in H. discriminate H.
Qed.

(** ** C4: [seededShuffle] *)

(** A sample of the generator lies in [0,1). *)
Lemma rng_call_range (seed : Z) : 0 <= fst (rng_call seed) < 1.
Proof.
  unfold rng_call. cbn [fst]. unfold ushr at 1.
  rewrite Z.shiftr_0_r. unfold ToUint32.
  match goal with |- context [(?n mod two32)%Z] => set (u := (n mod two32)%Z) end.
  assert (Hu : (0 <= u < two32)%Z) by (apply Z.mod_pos_bound; reflexivity).
  assert (H32 : 0 < inject_Z two32) by reflexivity.
  split.
  - apply Qle_shift_div_l; [exact H32 |]. rewrite Qmult_0_l.
    change 0 with (inject_Z 0). rewrite <- Zle_Qle. exact (proj1 Hu).
  - apply Qlt_shift_div_r; [exact H32 |]. rewrite Qmult_1_l.
    rewrite <- Zlt_Qlt. exact (proj2 Hu).
Qed.

(** The index drawn for position [i] is one of [0..i]. *)
Lemma shuffle_index_bound (r : Q) (i : nat) :
  0 <= r < 1 ->
  (Z.to_nat (Math_floor (r * inject_Z (Z.of_nat i + 1))) <= i)%nat.
Proof.
  intros [H0 H1]. unfold Math_floor.
  assert (Hi : 0 < inject_Z (Z.of_nat i + 1))
    by (change 0 with (inject_Z 0); rewrite <- Zlt_Qlt; lia).
  assert (Hlt : r * inject_Z (Z.of_nat i + 1) < inject_Z (Z.of_nat i + 1)).
  { rewrite <- (Qmult_1_l (inject_Z (Z.of_nat i + 1))) at 2.
    apply Qmult_lt_compat_r; assumption. }
  pose proof (Qfloor_le (r * inject_Z (Z.of_nat i + 1))) as Hf.
  assert (Hz : (Qfloor (r * inject_Z (Z.of_nat i + 1)) < Z.of_nat i + 1)%Z).
  { rewrite Zlt_Qlt. eapply Qle_lt_trans; eassumption. }
  lia.
Qed.

Section ShuffleFacts.
Context {T : Type}.
Implicit Types (arr : list T) (s : gmap positive (list T)).

Lemma insert_cons_perm arr (j : nat) (a b : T) :
  arr !! j = Some b -> b :: <[j := a]> arr ≡ₚ a :: arr.
Proof.
  revert j. induction arr as [| c arr IH]; intros [| j] H; try discriminate.
  - injection H as ->. apply Permutation_swap.
  - cbn in H. cbn [insert list_insert].
    etrans; [apply Permutation_swap |].
    rewrite (IH j H). apply Permutation_swap.
Qed.

Lemma swap_perm arr (i j : nat) arr' :
  swap arr i j = Some arr' -> arr' ≡ₚ arr.
Proof.
  unfold swap.
  destruct (arr !! j) as [rj |] eqn:Hj; [| discriminate].
  destruct (arr !! i) as [ri |] eqn:Hi; [| discriminate].
  intros [= <-]. revert i j Hi Hj.
  induction arr as [| c arr IH]; intros [| i] [| j] Hi Hj; try discriminate.
  - injection Hi as ->. injection Hj as ->. reflexivity.
  - injection Hi as ->. cbn in Hj. cbn [insert list_insert].
    now apply insert_cons_perm.
  - injection Hj as ->. cbn in Hi. cbn [insert list_insert].
    now apply insert_cons_perm.
  - cbn in Hi, Hj. cbn [insert list_insert]. f_equiv. now apply IH.
Qed.

Lemma swap_in_range arr (i j : nat) :
  (i < length arr)%nat -> (j <= i)%nat -> is_Some (swap arr i j).
Proof.
  intros Hi Hj. unfold swap.
  destruct (lookup_lt_is_Some_2 arr j ltac:(lia)) as [rj ->].
  destruct (lookup_lt_is_Some_2 arr i Hi) as [ri ->]. eauto.
Qed.

(** The loop entered at counter [i] turns the array into a permutation of
    itself that depends on the counter, the generator state and the array
    value only; nothing else in the store changes. *)
Lemma shuffle_loop_spec (i : nat) :
  forall (rng : Z) arr,
    (i < length arr \/ i = 0)%nat ->
    exists arr',
      arr' ≡ₚ arr
      /\ forall (result : positive) s,
           s !! result = Some arr ->
           shuffle_loop result i rng s = Some (<[result := arr']> s).
Proof.
  induction i as [| i IH]; intros rng arr Hi.
  - exists arr. split; [reflexivity |]. intros result s Hs.
    cbn [shuffle_loop]. now rewrite insert_id.
  - assert (Hlen : (S i < length arr)%nat) by lia.
    pose proof (rng_call_range rng) as Hr.
    destruct (rng_call rng) as [r rng'] eqn:Hcall. cbn [fst] in Hr.
    pose proof (shuffle_index_bound r (S i) Hr) as Hj.
    destruct (swap_in_range arr (S i) _ Hlen Hj) as [arr1 Hswap].
    pose proof (swap_perm _ _ _ _ Hswap) as Hperm1.
    destruct (IH rng' arr1) as (arr' & Hperm & Hrun).
    { left. rewrite (Permutation_length Hperm1). lia. }
    exists arr'. split; [now rewrite Hperm |].
    intros result s Hs. cbn [shuffle_loop]. rewrite Hcall, Hs.
    cbn [mbind option_bind]. rewrite Hswap. cbn [mbind option_bind].
    rewrite (Hrun result (<[result := arr1]> s)) by apply lookup_insert_eq.
    now rewrite insert_insert_eq.
Qed.

(** C4. [seededShuffle] returns a fresh array holding a permutation of the
    input array's elements; the input array and every other object of the
    store are unchanged; and the permuted content depends on the input
    content and the seed only, whatever the store and the references. *)
Theorem seededShuffle_permutation_pure
    (array : positive) (seed : Z) s arr :
  s !! array = Some arr ->
  exists (result : positive) arr' (s' : gmap positive (list T)),
    seededShuffle array seed s = Some (result, s')
    /\ s' !! result = Some arr'
    /\ arr' ≡ₚ arr
    /\ s !! result = None
    /\ s' !! array = Some arr
    /\ (forall l, l <> result -> s' !! l = s !! l)
    /\ (forall (array2 : positive) (s2 : gmap positive (list T)),
          s2 !! array2 = Some arr ->
          exists result2 s2',
            seededShuffle array2 seed s2 = Some (result2, s2')
            /\ s2' !! result2 = Some arr').
Proof.
  intros Harr.
  destruct (shuffle_loop_spec (length arr - 1) (createRNG seed) arr)
    as (arr' & Hperm & Hrun).
  { destruct arr; cbn [length]; lia. }
  assert (Hfresh : forall s0 : gmap positive (list T),
             s0 !! fresh (dom s0) = None).
  { intros s0. apply not_elem_of_dom, is_fresh. }
  assert (Hgo : forall (a : positive) (s0 : gmap positive (list T)),
             s0 !! a = Some arr ->
             seededShuffle a seed s0
             = Some (fresh (dom s0),
                     <[fresh (dom s0) := arr']> s0)).
  { intros a s0 Ha. unfold seededShuffle. rewrite Ha. cbn [mbind option_bind].
    rewrite (Hrun _ (<[fresh (dom s0) := arr]> s0)) by apply lookup_insert_eq.
    cbn [mbind option_bind]. now rewrite insert_insert_eq. }
  exists (fresh (dom s)), arr', (<[fresh (dom s) := arr']> s).
  assert (Hne : array <> fresh (dom s)).
  { intros E. rewrite E, Hfresh in Harr. discriminate. }
  split; [now apply Hgo |].
  split; [apply lookup_insert_eq |].
  split; [exact Hperm |].
  split; [apply Hfresh |].
  split; [now rewrite lookup_insert_ne |].
  split; [intros l Hl; now rewrite lookup_insert_ne |].
  intros array2 s2 H2.
  exists (fresh (dom s2)), (<[fresh (dom s2) := arr']> s2).
  split; [now apply Hgo | apply lookup_insert_eq].
Qed.

End ShuffleFacts.

Lemma seededShuffle_permutation_pure_witness :
  exists (result : positive) (arr' : list nat) (s' : gmap positive (list nat)),
    seededShuffle 1%positive 7 {[ 1%positive := [10; 20; 30; 40]%nat ]}
      = Some (result, s')
    /\ s' !! result = Some arr'
    /\ arr' ≡ₚ [10; 20; 30; 40]%nat
    /\ ({[ 1%positive := [10; 20; 30; 40]%nat ]} : gmap positive (list nat))
         !! result = None
    /\ s' !! 1%positive = Some [10; 20; 30; 40]%nat
    /\ (forall l, l <> result ->
          s' !! l
          = ({[ 1%positive := [10; 20; 30; 40]%nat ]}
               : gmap positive (list nat)) !! l)
    /\ (forall (array2 : positive) (s2 : gmap positive (list nat)),
          s2 !! array2 = Some [10; 20; 30; 40]%nat ->
          exists result2 s2',
            seededShuffle array2 7 s2 = Some (result2, s2')
            /\ s2' !! result2 = Some arr').
Proof.
  apply (seededShuffle_permutation_pure 1%positive 7
           {[ 1%positive := [10; 20; 30; 40]%nat ]} [10; 20; 30; 40]%nat).
  apply lookup_singleton_eq.
Defined.

(** ** The object store: allocation, frames and read-back *)

Lemma bind_run {A B} (m : M A) (f : A -> M B) (h : heap) :
  (m ≫= f) h = match m h with Some (a, h') => f a h' | None => None end.
Proof. reflexivity. Qed.

Lemma mapM_nil_run {A B} (f : A -> M B) (h : heap) :
  mapM f [] h = Some ([], h).
Proof. reflexivity. Qed.

Lemma mapM_cons_run {A B} (f : A -> M B) (a : A) (l : list A) (h : heap) :
  mapM f (a :: l) h
  = match f a h with
    | Some (b, h1) =>
        match mapM f l h1 with
        | Some (k, h2) => Some (b :: k, h2)
        | None => None
        end
    | None => None
    end.
Proof.
  change (mapM f (a :: l)) with (b ← f a; k ← mapM f l; mret (b :: k)).
  rewrite bind_run. destruct (f a h) as [[b h1] |]; [| reflexivity].
  rewrite bind_run. destruct (mapM f l h1) as [[k h2] |]; reflexivity.
Qed.

Lemma fresh_None (h : heap) : h !! fresh (dom h) = None.
Proof. apply not_elem_of_dom, is_fresh. Qed.

Lemma alloc_run (o : object) (h : heap) :
  alloc o h = Some (fresh (dom h), <[fresh (dom h) := o]> h).
Proof. reflexivity. Qed.

Lemma alloc_subseteq (h : heap) (o : object) : h ⊆ <[fresh (dom h) := o]> h.
Proof. apply insert_subseteq, fresh_None. Qed.

Lemma pointAt_mono (h h' : heap) (l : loc) (p : Point) :
  h ⊆ h' -> pointAt h l = Some p -> pointAt h' l = Some p.
Proof.
  unfold pointAt. intros Hsub.
  destruct (h !! l) as [[q | |] |] eqn:E; try discriminate.
  intros [= <-]. now rewrite (lookup_weaken _ _ _ _ E Hsub).
Qed.

Lemma arrayAt_mono (h h' : heap) (l : loc) (ls : list loc) :
  h ⊆ h' -> arrayAt h l = Some ls -> arrayAt h' l = Some ls.
Proof.
  unfold arrayAt. intros Hsub.
  destruct (h !! l) as [[| ks |] |] eqn:E; try discriminate.
  intros [= <-]. now rewrite (lookup_weaken _ _ _ _ E Hsub).
Qed.

Lemma mapM_option_mono {A B} (f g : A -> option B) (l : list A) (k : list B) :
  (forall a b, f a = Some b -> g a = Some b) ->
  mapM f l = Some k -> mapM g l = Some k.
Proof.
  intros Hfg. rewrite !mapM_Some. intros H.
  eapply Forall2_impl; [exact H | exact Hfg].
Qed.

Lemma points_mono (h h' : heap) (ls : list loc) (vs : list Point) :
  h ⊆ h' -> mapM (pointAt h) ls = Some vs -> mapM (pointAt h') ls = Some vs.
Proof. intros Hsub. apply mapM_option_mono. intros a b. now apply pointAt_mono. Qed.

Lemma bind_Some {A B} (o : option A) (f : A -> option B) (b : B) :
  o ≫= f = Some b <-> exists a, o = Some a /\ f a = Some b.
Proof.
  destruct o as [a |]; cbn; split.
  - intros E. now exists a.
  - now intros (a' & [= <-] & E).
  - discriminate.
  - now intros (a' & E & _).
Qed.

Lemma polygonAt_mono (h h' : heap) (l : loc) (pts : list Point) :
  h ⊆ h' -> polygonAt h l = Some pts -> polygonAt h' l = Some pts.
Proof.
  unfold polygonAt. intros Hsub. rewrite !bind_Some.
  intros (ls & Hls & Hpts). exists ls. split.
  - now apply (arrayAt_mono h).
  - now apply (points_mono h).
Qed.

Lemma regionAt_mono (h h' : heap) (l : loc) (r : Region) :
  h ⊆ h' -> regionAt h l = Some r -> regionAt h' l = Some r.
Proof.
  unfold regionAt. intros Hsub.
  destruct (h !! l) as [[| | ro] |] eqn:E; try discriminate.
  rewrite (lookup_weaken _ _ _ _ E Hsub).
  destruct (polygonAt h (obj_polygon ro)) as [pts |] eqn:Hp; [| discriminate].
  now rewrite (polygonAt_mono _ _ _ _ Hsub Hp).
Qed.

Lemma regions_mono (h h' : heap) (ls : list loc) (rs : list Region) :
  h ⊆ h' -> mapM (regionAt h) ls = Some rs -> mapM (regionAt h') ls = Some rs.
Proof. intros Hsub. apply mapM_option_mono. intros a b. now apply regionAt_mono. Qed.

Lemma regionsAt_mono (h h' : heap) (l : loc) (rs : list Region) :
  h ⊆ h' -> regionsAt h l = Some rs -> regionsAt h' l = Some rs.
Proof.
  unfold regionsAt. intros Hsub. rewrite !bind_Some.
  intros (ls & Hls & Hrs). exists ls. split.
  - now apply (arrayAt_mono h).
  - now apply (regions_mono h).
Qed.

Lemma loadArray_run (h : heap) (l : loc) (ls : list loc) :
  arrayAt h l = Some ls -> loadArray l h = Some (ls, h).
Proof.
  unfold arrayAt, loadArray.
  destruct (h !! l) as [[| ks |] |]; try discriminate. now intros [= ->].
Qed.

Lemma loadPoint_run (h : heap) (l : loc) (p : Point) :
  pointAt h l = Some p -> loadPoint l h = Some (p, h).
Proof.
  unfold pointAt, loadPoint.
  destruct (h !! l) as [[q | |] |]; try discriminate. now intros [= ->].
Qed.

Lemma loadPoints_run (h : heap) (ls : list loc) (vs : list Point) :
  mapM (pointAt h) ls = Some vs -> mapM loadPoint ls h = Some (vs, h).
Proof.
  rewrite mapM_Some. induction 1 as [| l v ls vs Hl _ IH].
  - apply mapM_nil_run.
  - rewrite mapM_cons_run, (loadPoint_run _ _ _ Hl), IH. reflexivity.
Qed.

(** [.map(p => ({ ...p }))]: the copies are fresh, pairwise distinct
    objects with the values of the originals; the store is only extended. *)
Lemma copy_points_run (ls : list loc) :
  forall (h : heap) (vs : list Point),
    mapM (pointAt h) ls = Some vs ->
    exists (cs : list loc) (h' : heap),
      mapM (fun p => v ← loadPoint p; alloc (OPoint v)) ls h = Some (cs, h')
      /\ h ⊆ h'
      /\ mapM (pointAt h') cs = Some vs
      /\ NoDup cs
      /\ (forall c, c ∈ cs -> h !! c = None).
Proof.
  induction ls as [| l ls IH]; intros h vs Hvs.
  - apply mapM_Some in Hvs. inversion Hvs; subst.
    exists [], h. rewrite mapM_nil_run. repeat split; auto.
    + constructor.
    + intros c Hc. now apply elem_of_nil in Hc.
  - apply mapM_Some in Hvs. inversion Hvs as [| ? v ? vs' Hl Hrest]; subst.
    apply mapM_Some in Hrest.
    set (c := fresh (dom h)). set (h1 := <[c := OPoint v]> h).
    assert (Hsub1 : h ⊆ h1) by apply alloc_subseteq.
    destruct (IH h1 vs' (points_mono _ _ _ _ Hsub1 Hrest))
      as (cs & h' & Hrun & Hsub & Hread & Hnd & Hfresh).
    exists (c :: cs), h'.
    assert (Hc : c ∉ cs).
    { intros Hin. specialize (Hfresh c Hin).
      unfold h1 in Hfresh. now rewrite lookup_insert_eq in Hfresh. }
    split; [| split; [| split; [| split]]].
    + rewrite mapM_cons_run, bind_run, (loadPoint_run _ _ _ Hl), alloc_run.
      fold c h1. now rewrite Hrun.
    + now trans h1.
    + apply mapM_Some. constructor; [| now apply mapM_Some].
      apply (pointAt_mono h1); [exact Hsub |].
      unfold pointAt, h1. now rewrite lookup_insert_eq.
    + now constructor.
    + intros c' Hc'. apply elem_of_cons in Hc'. destruct Hc' as [-> | Hc'].
      * apply fresh_None.
      * specialize (Hfresh c' Hc').
        destruct (h !! c') eqn:E; [| reflexivity].
        now rewrite (lookup_weaken _ _ _ _ E Hsub1) in Hfresh.
Qed.

Lemma points_frame (h h' : heap) (cs : list loc) (vs : list Point) :
  (forall l, l ∈ cs -> h' !! l = h !! l) ->
  mapM (pointAt h) cs = Some vs -> mapM (pointAt h') cs = Some vs.
Proof.
  rewrite !mapM_Some. intros Hframe H.
  induction H as [| l v cs vs Hl _ IH]; constructor.
  - unfold pointAt in *. rewrite Hframe; [exact Hl | left].
  - apply IH. intros l' Hl'. apply Hframe. now right.
Qed.

(** [forEach] with an assigning callback: each listed point object gets the
    callback's value; no other object changes. *)
Lemma update_each_run (cb : Point -> Point) (cs : list loc) :
  forall (h : heap) (vs : list Point),
    NoDup cs ->
    mapM (pointAt h) cs = Some vs ->
    exists h' : heap,
      iterM (update cb) cs h = Some (tt, h')
      /\ mapM (pointAt h') cs = Some (cb <$> vs)
      /\ (forall l, l ∉ cs -> h' !! l = h !! l).
Proof.
  induction cs as [| c cs IH]; intros h vs Hnd Hvs.
  - apply mapM_Some in Hvs. inversion Hvs; subst. exists h. auto.
  - apply mapM_Some in Hvs. inversion Hvs as [| ? v ? vs' Hc Hrest]; subst.
    apply NoDup_cons in Hnd. destruct Hnd as [Hnotin Hnd].
    set (h1 := <[c := OPoint (cb v)]> h).
    assert (Hrest1 : mapM (pointAt h1) cs = Some vs').
    { apply (points_frame h); [| now apply mapM_Some].
      intros l Hl. unfold h1. rewrite lookup_insert_ne; [reflexivity |].
      intros ->. contradiction. }
    destruct (IH h1 vs' Hnd Hrest1) as (h' & Hrun & Hread & Hframe).
    exists h'. split; [| split].
    + cbn [iterM]. rewrite bind_run. unfold update at 1. rewrite bind_run.
      rewrite (loadPoint_run _ _ _ Hc). unfold storePoint.
      unfold pointAt in Hc. destruct (h !! c) as [[q | |] |]; try discriminate.
      fold h1. exact Hrun.
    + rewrite fmap_cons. apply mapM_Some. constructor; [| now apply mapM_Some].
      unfold pointAt. rewrite (Hframe c Hnotin). unfold h1.
      now rewrite lookup_insert_eq.
    + intros l Hl. apply not_elem_of_cons in Hl. destruct Hl as [Hne Hl].
      rewrite (Hframe l Hl). unfold h1. now rewrite lookup_insert_ne.
Qed.

(** ** [getDynamicRegions] on the store *)

Section DynamicRegions.
Context `{Trig}.
Variable regionMap : RegionType -> option Indicators.Indicator.

(** One template: the derived region is the value [dynamicRegionOf] and
    every object that existed before is as it was. *)
Lemma dynamicRegion_run (h : heap) (region : loc) (r : Region) :
  regionAt h region = Some r ->
  exists (l' : loc) (h' : heap),
    dynamicRegion regionMap region h = Some (l', h')
    /\ h ⊆ h'
    /\ regionAt h' l' = Some (dynamicRegionOf regionMap r).
Proof.
  intros Hr. unfold regionAt in Hr.
  destruct (h !! region) as [[| | ro] |] eqn:Hreg; try discriminate.
  apply bind_Some in Hr. destruct Hr as (pts & Hpts & [= <-]).
  unfold dynamicRegion. rewrite bind_run. unfold loadRegion. rewrite Hreg.
  unfold dynamicRegionOf. cbn [id polygon priority tier].
  destruct (regionMap (obj_id ro)) as [indicator |].
  2:{ exists region, h. split; [reflexivity |]. split; [reflexivity |].
      unfold regionAt. now rewrite Hreg, Hpts. }
  set (magnitude := Indicators.normalizeIndicator indicator).
  unfold polygonAt in Hpts. apply bind_Some in Hpts.
  destruct Hpts as (elems & Hel & Hvals).
  (* [...region.polygon] *)
  set (spread := fresh (dom h)). set (h1 := <[spread := OArray elems]> h).
  assert (Hsub1 : h ⊆ h1) by apply alloc_subseteq.
  rewrite bind_run, bind_run, (loadArray_run _ _ _ Hel), alloc_run.
  fold spread h1.
  (* .map(p => ({ ...p })) *)
  destruct (copy_points_run elems h1 pts (points_mono _ _ _ _ Hsub1 Hvals))
    as (cs & h2 & Hcopy & Hsub2 & Hread2 & Hnd & Hfresh).
  set (shifted := fresh (dom h2)). set (h3 := <[shifted := OArray cs]> h2).
  assert (Hsub3 : h2 ⊆ h3) by apply alloc_subseteq.
  assert (Harr3 : arrayAt h3 shifted = Some cs)
    by (unfold arrayAt, h3; now rewrite lookup_insert_eq).
  assert (Hread3 : mapM (pointAt h3) cs = Some pts)
    by now apply (points_mono h2).
  rewrite bind_run. unfold arrayMap. rewrite bind_run.
  rewrite (loadArray_run h1 spread elems)
    by (unfold arrayAt, h1; now rewrite lookup_insert_eq).
  rewrite bind_run, Hcopy, alloc_run. fold shifted h3.
  (* reduce reads the copies *)
  rewrite bind_run. unfold pointsOf. rewrite bind_run.
  rewrite (loadArray_run _ _ _ Harr3), (loadPoints_run _ _ _ Hread3).
  (* the forEach of the matching branch, if any *)
  set (pts' := match distortion (obj_id ro) magnitude pts with
               | Some cb => cb <$> pts
               | None => pts
               end).
  assert (Hdist : exists h4 : heap,
             match distortion (obj_id ro) magnitude pts with
             | Some cb => forEach shifted (update cb)
             | None => mret tt
             end h3 = Some (tt, h4)
             /\ mapM (pointAt h4) cs = Some pts'
             /\ (forall l, l ∉ cs -> h4 !! l = h3 !! l)).
  { unfold pts'. destruct (distortion (obj_id ro) magnitude pts) as [cb |].
    - destruct (update_each_run cb cs h3 pts Hnd Hread3)
        as (h4 & Hrun & Hread4 & Hframe).
      exists h4. split; [| auto].
      unfold forEach. now rewrite bind_run, (loadArray_run _ _ _ Harr3).
    - exists h3. auto. }
  destruct Hdist as (h4 & Hrun4 & Hread4 & Hframe4).
  rewrite bind_run, Hrun4, alloc_run.
  set (l' := fresh (dom h4)).
  set (ro' := {| obj_id := obj_id ro; obj_priority := obj_priority ro;
                 obj_polygon := shifted; obj_tier := obj_tier ro |}).
  set (h5 := <[l' := ORegion ro']> h4).
  assert (Hsub5 : h4 ⊆ h5) by apply alloc_subseteq.
  assert (Hshifted : shifted ∉ cs).
  { intros Hin. apply mapM_Some in Hread2.
    apply list_elem_of_lookup in Hin. destruct Hin as [i Hi].
    destruct (Forall2_lookup_l _ _ _ _ _ Hread2 Hi) as (v & _ & Hv).
    unfold pointAt in Hv. unfold shifted in Hv. now rewrite fresh_None in Hv. }
  exists l', h5. split; [reflexivity |]. split.
  - apply map_subseteq_spec. intros l o Hl.
    apply (lookup_weaken h4); [| exact Hsub5].
    assert (Hl1 : h1 !! l = Some o) by now apply (lookup_weaken h).
    rewrite Hframe4.
    + apply (lookup_weaken h2); [| exact Hsub3].
      now apply (lookup_weaken h1).
    + intros Hin. rewrite (Hfresh l Hin) in Hl1. discriminate.
  - unfold regionAt, h5. rewrite lookup_insert_eq. fold h5.
    cbn [obj_polygon ro']. unfold polygonAt.
    assert (Harr5 : arrayAt h5 shifted = Some cs).
    { apply (arrayAt_mono h4); [exact Hsub5 |].
      unfold arrayAt. rewrite (Hframe4 shifted Hshifted).
      exact Harr3. }
    rewrite Harr5. cbn [mbind option_bind].
    rewrite (points_mono _ _ _ _ Hsub5 Hread4). reflexivity.
Qed.

(** The templates in turn. *)
Lemma dynamicRegions_run (ls : list loc) :
  forall (h : heap) (rs : list Region),
    mapM (regionAt h) ls = Some rs ->
    exists (out : list loc) (h' : heap),
      mapM (dynamicRegion regionMap) ls h = Some (out, h')
      /\ h ⊆ h'
      /\ mapM (regionAt h') out = Some (dynamicRegionOf regionMap <$> rs).
Proof.
  induction ls as [| l ls IH]; intros h rs Hrs.
  - apply mapM_Some in Hrs. inversion Hrs; subst. exists [], h. auto.
  - apply mapM_Some in Hrs. inversion Hrs as [| ? r ? rs' Hl Hrest]; subst.
    apply mapM_Some in Hrest.
    destruct (dynamicRegion_run h l r Hl) as (l' & h1 & Hrun1 & Hsub1 & Hread1).
    destruct (IH h1 rs' (regions_mono _ _ _ _ Hsub1 Hrest))
      as (out & h' & Hrun & Hsub & Hread).
    exists (l' :: out), h'. split; [| split].
    + now rewrite mapM_cons_run, Hrun1, Hrun.
    + now trans h1.
    + rewrite fmap_cons. apply mapM_Some.
      constructor; [| now apply mapM_Some].
      now apply (regionAt_mono h1).
Qed.

(** [getDynamicRegions] returns a fresh array of the derived regions and
    leaves every object of the old store as it was. *)
Lemma getDynamicRegions_run (h : heap) (face : loc)
    (indicators : list Indicators.Indicator) (rs : list Region) :
  regionsAt h face = Some rs ->
  exists (out : loc) (h' : heap),
    getDynamicRegions face indicators regionMap h = Some (out, h')
    /\ h ⊆ h'
    /\ h !! out = None
    /\ regionsAt h' out = Some (dynamicRegionOf regionMap <$> rs).
Proof.
  unfold regionsAt. rewrite bind_Some. intros (ls & Hls & Hrs).
  destruct (dynamicRegions_run ls h rs Hrs) as (outs & h1 & Hrun & Hsub & Hread).
  set (out := fresh (dom h1)). set (h2 := <[out := OArray outs]> h1).
  assert (Hsub2 : h1 ⊆ h2) by apply alloc_subseteq.
  exists out, h2. split; [| split; [| split]].
  - unfold getDynamicRegions, arrayMap.
    now rewrite bind_run, (loadArray_run _ _ _ Hls), bind_run, Hrun, alloc_run.
  - now trans h1.
  - destruct (h !! out) eqn:E; [| reflexivity].
    apply (lookup_weaken _ h1) in E; [| exact Hsub].
    unfold out in E. now rewrite fresh_None in E.
  - apply bind_Some. exists outs. split.
    + unfold arrayAt, h2. now rewrite lookup_insert_eq.
    + now apply (regions_mono h1).
Qed.

End DynamicRegions.

(** ** C10: derived regions keep identity, priority and tier *)

Lemma dynamicRegionOf_same `{Trig}
    (regionMap : RegionType -> option Indicator) (r : Region) :
  id (dynamicRegionOf regionMap r) = id r
  /\ priority (dynamicRegionOf regionMap r) = priority r
  /\ tier (dynamicRegionOf regionMap r) = tier r.
Proof. unfold dynamicRegionOf. destruct (regionMap (id r)); auto. Qed.

(** C10. From a store holding the template catalog, [getDynamicRegions]
    yields one derived region per template, in order, with the template's
    id, priority and tier; every object that existed before the call,
    the templates and their polygons included, is unchanged after it. *)
Theorem getDynamicRegions_keeps_identity_and_templates `{Trig}
    (regionMap : RegionType -> option Indicator)
    (indicators : list Indicator) (h : heap) (face : loc) :
  regionsAt h face = Some FACE_REGIONS ->
  exists (out : loc) (h' : heap) (dyn : list Region),
    getDynamicRegions face indicators regionMap h = Some (out, h')
    /\ regionsAt h' out = Some dyn
    /\ Forall2 (fun t d => id d = id t /\ priority d = priority t
                           /\ tier d = tier t) FACE_REGIONS dyn
    /\ (forall l o, h !! l = Some o -> h' !! l = Some o)
    /\ regionsAt h' face = Some FACE_REGIONS.
Proof.
  intros Hface.
  destruct (getDynamicRegions_run regionMap h face indicators _ Hface)
    as (out & h' & Hrun & Hsub & _ & Hread).
  exists out, h', (dynamicRegionOf regionMap <$> FACE_REGIONS).
  split; [exact Hrun |]. split; [exact Hread |]. split; [| split].
  - apply Forall2_fmap_r, Forall_Forall2_diag, Forall_forall.
    intros r _. apply dynamicRegionOf_same.
  - intros l o Hl. now apply (lookup_weaken h).
  - now apply (regionsAt_mono h).
Qed.

Lemma getDynamicRegions_keeps_identity_and_templates_witness :
  exists (out : loc) (h' : heap) (dyn : list Region),
    getDynamicRegions (H := small_angle) (fst loaded) [gdp 10] sample_map
      (snd loaded) = Some (out, h')
    /\ regionsAt h' out = Some dyn
    /\ Forall2 (fun t d => id d = id t /\ priority d = priority t
                           /\ tier d = tier t) FACE_REGIONS dyn
    /\ (forall l o, snd loaded !! l = Some o -> h' !! l = Some o)
    /\ regionsAt h' (fst loaded) = Some FACE_REGIONS.
Proof.
  apply (getDynamicRegions_keeps_identity_and_templates (H := small_angle)
           sample_map [gdp 10] (snd loaded) (fst loaded)).
  vm_compute. reflexivity.
Defined.

(** ** C1: the Chin skew around magnitude 0.5 *)

Lemma with_magnitude_normalized (m : Q) :
  0 <= m <= 1 -> normalizeIndicator (with_magnitude m) == m.
Proof.
  intros [H0 H1]. unfold normalizeIndicator, with_magnitude.
  cbn [current min max].
  assert (E : leb 1 0 = false) by reflexivity. rewrite E.
  assert (Hv : (m - 0) / (1 - 0) == m) by (field; discriminate).
  set (v := (m - 0) / (1 - 0)) in *.
  destruct (Math_min_spec 1 v) as [[Ha ->] | [Ha ->]].
  - destruct (Math_max_spec 0 v) as [[Hb ->] | [Hb ->]]; lra.
  - destruct (Math_max_spec 0 1) as [[Hb ->] | [Hb ->]]; lra.
Qed.

Lemma loaded_catalog : regionsAt (snd loaded) (fst loaded) = Some FACE_REGIONS.
Proof. vm_compute. reflexivity. Qed.

(** The Chin polygon in closed form: the base vertices stay, the tip moves
    in x with slope 0.03 up to magnitude 0.5 and 0.015 beyond. *)
Lemma ChinPolygon_closed_form (m : Q) (poly : list Point) :
  ChinPolygon m poly ->
  exists x3 : Q,
    Forall2 same_point poly [pt 0.3 0.75; pt 0.7 0.75; pt x3 0.9]
    /\ (m <= 0.5 -> x3 == 0.5 + 0.03 * (m - 0.5))
    /\ (0.5 < m -> x3 == 0.5 + 0.015 * (m - 0.5)).
Proof.
  intros (T & h & face & indicators & regionMap & indicator & out & h' & dyn
          & chin & Hface & Hmap & Hm & Hrun & Hdyn & Hin & Hid & <-).
  destruct (getDynamicRegions_run regionMap h face indicators _ Hface)
    as (out0 & h0 & Hrun0 & _ & _ & Hread0).
  rewrite Hrun in Hrun0. injection Hrun0 as <- <-.
  assert (Hd : dyn = dynamicRegionOf regionMap <$> FACE_REGIONS)
    by congruence.
  rewrite Hd in Hin. clear Hd Hread0 Hdyn.
  apply list_elem_of_fmap in Hin. destruct Hin as (r & -> & Hr).
  destruct (dynamicRegionOf_same regionMap r) as (Hid' & _ & _).
  rewrite Hid' in Hid.
  unfold FACE_REGIONS in Hr.
  repeat (apply elem_of_cons in Hr; destruct Hr as [-> | Hr];
          [try discriminate Hid |]).
  2:{ now apply elem_of_nil in Hr. }
  unfold dynamicRegionOf. cbn [id polygon]. rewrite Hmap. cbn [polygon].
  set (m0 := normalizeIndicator indicator) in *.
  unfold distortion.
  destruct (ltb_cases 0.5 m0) as [[E Hlt] | [E Hge]];
    unfold gtb; rewrite E.
  - exists (0.5 + (0.9 - 0.75) * ((m0 - 0.5) * 0.2) * 0.5).
    split; [| split].
    + repeat constructor; cbn; ring.
    + intros Hle. lra.
    + intros _. rewrite <- Hm. ring.
  - exists (0.5 + (0.9 - 0.75) * ((m0 - 0.5) * 0.2)).
    split; [| split].
    + repeat constructor; cbn; ring.
    + intros _. rewrite <- Hm. ring.
    + intros Hlt. lra.
Qed.

(** Every magnitude of [0,1] is realised. *)
Lemma ChinPolygon_exists (m : Q) :
  0 <= m <= 1 -> exists poly, ChinPolygon m poly.
Proof.
  intros Hm.
  destruct (getDynamicRegions_run (H := small_angle) (chin_only m)
              (snd loaded) (fst loaded) [] _ loaded_catalog)
    as (out & h' & Hrun & _ & _ & Hread).
  set (chin := {| id := Chin; tier := secondary; priority := 6;
                  polygon := [pt 0.3 0.75; pt 0.7 0.75; pt 0.5 0.9] |}).
  exists (polygon (dynamicRegionOf (H := small_angle) (chin_only m) chin)).
  exists small_angle, (snd loaded), (fst loaded), [], (chin_only m),
    (with_magnitude m), out, h',
    (dynamicRegionOf (H := small_angle) (chin_only m) <$> FACE_REGIONS),
    (dynamicRegionOf (H := small_angle) (chin_only m) chin).
  split; [exact loaded_catalog |]. split; [reflexivity |].
  split; [now apply with_magnitude_normalized |].
  split; [exact Hrun |]. split; [exact Hread |].
  split; [| split; [| reflexivity]].
  - apply list_elem_of_fmap. exists chin. split; [reflexivity |].
    unfold FACE_REGIONS, chin. do 6 right. left.
  - apply dynamicRegionOf_same.
Qed.

(** The polygon is continuous in the magnitude at 0.5, from both sides. *)
Lemma ChinPolygon_continuous_at_half (eps : Q) :
  0 < eps ->
  exists delta : Q,
    0 < delta
    /\ forall m poly poly0,
         Qabs (m - 0.5) < delta ->
         ChinPolygon m poly -> ChinPolygon 0.5 poly0 ->
         close eps poly poly0.
Proof.
  intros Heps. exists eps. split; [exact Heps |].
  intros m poly poly0 Hm Hp Hp0.
  destruct (ChinPolygon_closed_form _ _ Hp) as (x3 & Hf & Hlo & Hhi).
  destruct (ChinPolygon_closed_form _ _ Hp0) as (x0 & Hf0 & Hlo0 & _).
  specialize (Hlo0 ltac:(lra)).
  apply Qabs_Qlt_condition in Hm.
  assert (Hx : - eps < x3 - x0 /\ x3 - x0 < eps).
  { destruct (Qlt_le_dec 0.5 m) as [Hgt | Hle].
    - specialize (Hhi Hgt). lra.
    - specialize (Hlo Hle). lra. }
  inversion Hf as [| p1 ? ? ? [Hx1 Hy1] Hf']; subst.
  inversion Hf' as [| p2 ? ? ? [Hx2 Hy2] Hf'']; subst.
  inversion Hf'' as [| p3 ? ? ? [Hx3 Hy3] Hnil]; subst.
  inversion Hnil; subst.
  inversion Hf0 as [| q1 ? ? ? [Hu1 Hv1] Hg']; subst.
  inversion Hg' as [| q2 ? ? ? [Hu2 Hv2] Hg'']; subst.
  inversion Hg'' as [| q3 ? ? ? [Hu3 Hv3] Hnil0]; subst.
  inversion Hnil0; subst.
  cbn [x y pt] in *.
  unfold close. repeat constructor; apply Qabs_Qlt_condition; lra.
Qed.

(** C1, in the form that holds of the code. At magnitude exactly 0.5,
    and anywhere up to it, the symmetric skew runs; the asymmetric one runs strictly above. The Chin
    polygon that [getDynamicRegions] derives exists for every magnitude of
    [0,1], keeps its two base vertices and moves its tip in x by
    [0.03*(m-0.5)] up to 0.5 and by [0.015*(m-0.5)] beyond: as a function
    of the magnitude it is continuous at 0.5 from below and from above, and
    what changes there is its slope. *)
Theorem chin_skew_continuous_with_kink_at_half :
  (forall (T : Trig) (m : Q) (pts : list Point),
      m <= 0.5 -> distortion Chin m pts = Some (chin_cb ((m - 0.5) * 0.2)))
  /\ (forall (T : Trig) (m : Q) (pts : list Point),
        0.5 < m ->
        distortion Chin m pts = Some (chin_asym_cb ((m - 0.5) * 0.2)))
  /\ (forall m : Q, 0 <= m <= 1 -> exists poly, ChinPolygon m poly)
  /\ (forall (m : Q) (poly : list Point),
        ChinPolygon m poly ->
        exists x3 : Q,
          Forall2 same_point poly [pt 0.3 0.75; pt 0.7 0.75; pt x3 0.9]
          /\ (m <= 0.5 -> x3 == 0.5 + 0.03 * (m - 0.5))
          /\ (0.5 < m -> x3 == 0.5 + 0.015 * (m - 0.5)))
  /\ (forall eps : Q,
        0 < eps ->
        exists delta : Q,
          0 < delta
          /\ forall m poly poly0,
               Qabs (m - 0.5) < delta ->
               ChinPolygon m poly -> ChinPolygon 0.5 poly0 ->
               close eps poly poly0).
Proof.
  split; [| split; [| split; [| split]]].
  - intros T m pts Hm. unfold distortion, gtb.
    now destruct (ltb_cases 0.5 m) as [[-> Hlt] | [-> Hge]]; [lra |].
  - intros T m pts Hm. unfold distortion, gtb.
    now destruct (ltb_cases 0.5 m) as [[-> Hlt] | [-> Hge]]; [| lra].
  - exact ChinPolygon_exists.
  - exact ChinPolygon_closed_form.
  - exact ChinPolygon_continuous_at_half.
Qed.

Lemma chin_skew_continuous_with_kink_at_half_witness :
  distortion (H := small_angle) Chin 0.5 [pt 0.3 0.75; pt 0.7 0.75; pt 0.5 0.9]
    = Some (chin_cb ((0.5 - 0.5) * 0.2))
  /\ distortion (H := small_angle) Chin 0.501
       [pt 0.3 0.75; pt 0.7 0.75; pt 0.5 0.9]
     = Some (chin_asym_cb ((0.501 - 0.5) * 0.2))
  /\ (exists poly, ChinPolygon 0.499 poly)
  /\ (exists delta : Q,
        0 < delta
        /\ forall m poly poly0,
             Qabs (m - 0.5) < delta ->
             ChinPolygon m poly -> ChinPolygon 0.5 poly0 ->
             close 0.00001 poly poly0).
Proof.
  pose proof chin_skew_continuous_with_kink_at_half
    as (Hsym & Hasym & Hex & _ & Hcont).
  split; [| split; [| split]].
  - apply Hsym. lra.
  - apply Hasym. lra.
  - apply Hex. lra.
  - apply Hcont. lra.
Defined.

(** The polygon does not jump when the magnitude comes down to 0.5 from
    above: no tolerance separates it from the polygon at 0.5 on every
    right neighbourhood. *)
Lemma chin_no_jump_from_above :
  ~ (exists eps : Q,
        0 < eps
        /\ forall delta : Q,
             0 < delta ->
             exists m poly poly0,
               0.5 < m /\ m < 0.5 + delta
               /\ ChinPolygon m poly /\ ChinPolygon 0.5 poly0
               /\ ~ close eps poly poly0).
Proof.
  intros (eps & Heps & Hjump).
  destruct (ChinPolygon_continuous_at_half eps Heps) as (delta & Hd & Hcont).
  destruct (Hjump delta Hd) as (m & poly & poly0 & H1 & H2 & Hp & Hp0 & Hn).
  apply Hn. apply (Hcont m); trivial.
  apply Qabs_Qlt_condition. lra.
Qed.

(** ** [hashString] and the generator stream *)

Lemma ToInt32_repr (n : Z) : exists k : Z, ToInt32 n = (n + k * two32)%Z.
Proof.
  unfold ToInt32, ToUint32.
  pose proof (Z.div_mod n two32 ltac:(discriminate)) as Hdm.
  destruct (2147483648 <=? n mod two32)%Z.
  - exists (- (n / two32) - 1)%Z. lia.
  - exists (- (n / two32))%Z. lia.
Qed.

Lemma ToInt32_cong (a b k : Z) : a = (b + k * two32)%Z -> ToInt32 a = ToInt32 b.
Proof.
  intros ->. unfold ToInt32, ToUint32.
  now rewrite Z_mod_plus_full.
Qed.

Lemma ToInt32_range (n : Z) : (-2147483648 <= ToInt32 n < 2147483648)%Z.
Proof.
  unfold ToInt32, ToUint32.
  pose proof (Z.mod_pos_bound n two32 ltac:(reflexivity)) as Hb.
  unfold two32 in *.
  destruct (Z.leb_spec 2147483648 (n mod 4294967296)); lia.
Qed.

(** One round of the loop is [hash*31 + char] on 32-bit integers. *)
Lemma hash_step_poly (p char : Z) :
  hash_step (ToInt32 p) char = ToInt32 (31 * p + char).
Proof.
  unfold hash_step, or32, shl32.
  change (ToInt32 0) with 0%Z. rewrite Z.lor_0_r, Z.shiftl_mul_pow2 by lia.
  destruct (ToInt32_repr p) as [k1 E1].
  destruct (ToInt32_repr (ToInt32 p)) as [k0 E0].
  destruct (ToInt32_repr (ToInt32 (ToInt32 p) * 2 ^ 5)) as [k2 E2].
  destruct (ToInt32_repr (ToInt32 (ToInt32 (ToInt32 p) * 2 ^ 5)
                          - ToInt32 p + char)) as [k3 E3].
  rewrite (ToInt32_cong _ _ _ E3).
  apply (ToInt32_cong _ _ (k2 + 32 * k0 + 31 * k1)).
  rewrite E2, E0, E1. change (2 ^ 5)%Z with 32%Z. lia.
Qed.

Lemma hash_fold_poly (str : list Z) (p : Z) :
  fold_left hash_step str (ToInt32 p)
  = ToInt32 (fold_left (fun h c => 31 * h + c)%Z str p).
Proof.
  revert p. induction str as [| c str IH]; intros p; [reflexivity |].
  cbn [fold_left]. rewrite hash_step_poly. apply IH.
Qed.

Lemma hashString_poly_range (str : list Z) :
  hashString str
  = Z.abs (ToInt32 (fold_left (fun h c => 31 * h + c)%Z str 0%Z))
  /\ (0 <= hashString str <= 2147483648)%Z.
Proof.
  assert (E : hashString str
              = Z.abs (ToInt32 (fold_left (fun h c => 31 * h + c)%Z str 0%Z))).
  { unfold hashString. change 0%Z with (ToInt32 0) at 1.
    now rewrite hash_fold_poly. }
  split; [exact E |]. rewrite E.
  pose proof (ToInt32_range (fold_left (fun h c => 31 * h + c)%Z str 0%Z)).
  lia.
Qed.

(** X1. [hashString] is the absolute value of the polynomial hash with
    multiplier 31 wrapped to a signed 32-bit integer; it lies between 0
    and 2^31, both included. *)
Theorem hashString_polynomial (str : list Z) :
  hashString str
  = Z.abs (ToInt32 (fold_left (fun h c => 31 * h + c)%Z str 0%Z))
  /\ (0 <= hashString str <= 2147483648)%Z.
Proof. exact (hashString_poly_range str). Qed.

(** X2. The magnitude that the compositor derives from a serialised seed
    is one of 0, 0.01, ..., 0.99. *)
Theorem seedMag_range (str : list Z) :
  exists k : Z,
    (0 <= k <= 99)%Z /\ seedMag str == inject_Z k / 100
    /\ 0 <= seedMag str <= 0.99.
Proof.
  unfold seedMag.
  destruct (hashString_poly_range str) as [_ [H0 _]].
  pose proof (Z.rem_bound_pos (hashString str) 100 H0 ltac:(lia)) as Hr.
  set (k := Z.rem (hashString str) 100) in *.
  exists k. split; [lia |]. split; [reflexivity |].
  assert (H1 : 0 <= inject_Z k)
    by (change 0 with (inject_Z 0); rewrite <- Zle_Qle; lia).
  assert (H2 : inject_Z k <= 99)
    by (change 99 with (inject_Z 99); rewrite <- Zle_Qle; lia).
  split.
  - apply Qle_shift_div_l; [reflexivity | lra].
  - apply Qle_shift_div_r; [reflexivity | lra].
Qed.


(** ** Palette lookup and indicator colours *)

Lemma floor_between (v : Q) (a b : Z) :
  inject_Z a <= v -> v <= inject_Z b -> (a <= Qfloor v <= b)%Z.
Proof.
  intros Ha Hb. split.
  - rewrite <- (Qfloor_Z a). now apply Qfloor_resp_le.
  - rewrite <- (Qfloor_Z b). now apply Qfloor_resp_le.
Qed.

Lemma floor_below (v : Q) (b : Z) : v < inject_Z b -> (Qfloor v < b)%Z.
Proof.
  intros Hb. rewrite Zlt_Qlt. eapply Qle_lt_trans; [apply Qfloor_le | exact Hb].
Qed.

Lemma inject_between (r a b : Z) :
  (a <= r <= b)%Z -> inject_Z a <= inject_Z r <= inject_Z b.
Proof. intros [H1 H2]. split; now rewrite <- Zle_Qle. Qed.

Lemma floor_above (v : Q) (a : Z) : inject_Z a <= v -> (a <= Qfloor v)%Z.
Proof. intros Ha. rewrite <- (Qfloor_Z a). now apply Qfloor_resp_le. Qed.

Lemma palette_found (paletteName : PaletteType) :
  exists palette : Palette,
    palette ∈ PALETTES
    /\ palette_name palette = paletteName
    /\ length (colors palette) = 6%nat
    /\ List.find (fun p => bool_decide (palette_name p = paletteName)) PALETTES
       = Some palette.
Proof.
  destruct paletteName;
    refine (ex_intro _ _ (conj _ (conj _ (conj _ eq_refl))));
    [set_solver | reflexivity | reflexivity
    | set_solver | reflexivity | reflexivity
    | set_solver | reflexivity | reflexivity].
Qed.

(** X4. [getColorFromPalette] yields a colour exactly for values in
    [0, 1.2): it is the entry [floor(value*5)] of the palette of the given
    name; for a negative value or one from 1.2 on it is [undefined]. Within
    [0,1) the last colour of a palette is never chosen. *)
Theorem getColorFromPalette_defined (paletteName : PaletteType) (v : Q) :
  (0 <= v < 6 # 5 ->
   exists (palette : Palette) (color : string),
     palette ∈ PALETTES
     /\ palette_name palette = paletteName
     /\ getColorFromPalette paletteName v = Some color
     /\ colors palette !! Z.to_nat (Qfloor (v * 5)) = Some color
     /\ (v < 1 -> (Z.to_nat (Qfloor (v * 5)) < 5)%nat))
  /\ (v < 0 \/ 6 # 5 <= v -> getColorFromPalette paletteName v = None).
Proof.
  destruct (palette_found paletteName) as (palette & Hin & Hname & Hlen & Hfind).
  assert (Hrun : getColorFromPalette paletteName v
                 = if (Qfloor (v * 5) <? 0)%Z then None
                   else colors palette !! Z.to_nat (Qfloor (v * 5))).
  { unfold getColorFromPalette. rewrite Hfind. cbn [mbind option_bind].
    now rewrite Hlen. }
  rewrite Hrun. split.
  - intros [H0 H1].
    assert (Hlo : (0 <= Qfloor (v * 5))%Z)
      by (apply floor_above; change (inject_Z 0) with 0; lra).
    assert (Hhi : (Qfloor (v * 5) < 6)%Z)
      by (apply floor_below; change (inject_Z 6) with 6; lra).
    destruct (lookup_lt_is_Some_2 (colors palette) (Z.to_nat (Qfloor (v * 5))))
      as [color Hcolor]; [rewrite Hlen; lia |].
    exists palette, color. repeat split; trivial.
    + destruct (Z.ltb_spec (Qfloor (v * 5)) 0); [lia | exact Hcolor].
    + intros Hv.
      assert (Qfloor (v * 5) < 5)%Z
        by (apply floor_below; change (inject_Z 5) with 5; lra).
      lia.
  - intros Hout.
    destruct (Z.ltb_spec (Qfloor (v * 5)) 0) as [Hneg | Hpos]; [reflexivity |].
    destruct Hout as [Hv | Hv].
    + assert (Qfloor (v * 5) < 0)%Z
        by (apply floor_below; change (inject_Z 0) with 0; lra).
      lia.
    + assert (6 <= Qfloor (v * 5))%Z
        by (apply floor_above; change (inject_Z 6) with 6; lra).
      apply lookup_ge_None. rewrite Hlen. lia.
Qed.

Lemma getColorFromPalette_defined_witness :
  (exists (palette : Palette) (color : string),
      palette ∈ PALETTES
      /\ palette_name palette = Vibrant
      /\ getColorFromPalette Vibrant 0.5 = Some color
      /\ colors palette !! Z.to_nat (Qfloor (0.5 * 5)) = Some color
      /\ (0.5 < 1 -> (Z.to_nat (Qfloor (0.5 * 5)) < 5)%nat))
  /\ getColorFromPalette Vibrant 1.5 = None.
Proof.
  split.
  - apply (proj1 (getColorFromPalette_defined Vibrant 0.5)). lra.
  - apply (proj2 (getColorFromPalette_defined Vibrant 1.5)). right. lra.
Defined.

Lemma Zbetween_Q (t a b : Z) :
  inject_Z a - 1 < inject_Z t -> inject_Z t < inject_Z b + 1 ->
  (a <= t <= b)%Z.
Proof.
  intros Ha Hb.
  assert (Ha' : (a - 1 < t)%Z).
  { rewrite Zlt_Qlt. unfold Z.sub. rewrite inject_Z_plus, inject_Z_opp.
    change (inject_Z 1) with 1. lra. }
  assert (Hb' : (t < b + 1)%Z).
  { rewrite Zlt_Qlt, inject_Z_plus. change (inject_Z 1) with 1. lra. }
  lia.
Qed.

(** Name every floor in sight and record the two inequalities that define
    it. *)
Ltac floor_facts :=
  repeat match goal with
         | |- context [Qfloor ?v] =>
             let t := fresh "t" in
             let Hlo := fresh "Hlo" in
             let Hhi := fresh "Hhi" in
             pose proof (Qfloor_le v) as Hlo;
             pose proof (Qlt_floor v) as Hhi;
             rewrite inject_Z_plus in Hhi;
             change (inject_Z 1) with 1 in Hhi;
             let E := fresh "E" in
             remember (Qfloor v) as t eqn:E in *; clear E
         | H : context [Qfloor ?v] |- _ =>
             let t := fresh "t" in
             let Hlo := fresh "Hlo" in
             let Hhi := fresh "Hhi" in
             pose proof (Qfloor_le v) as Hlo;
             pose proof (Qlt_floor v) as Hhi;
             rewrite inject_Z_plus in Hhi;
             change (inject_Z 1) with 1 in Hhi;
             let E := fresh "E" in
             remember (Qfloor v) as t eqn:E in *; clear E
         end.

Lemma Znonneg_Q (t : Z) : - (1) < inject_Z t -> 0 <= inject_Z t.
Proof.
  intros H. change 0 with (inject_Z 0). rewrite <- Zle_Qle.
  assert (-1 < t)%Z by (rewrite Zlt_Qlt; exact H). lia.
Qed.

(** Floors of non-negative quantities are non-negative integers. *)
Ltac floor_nonneg :=
  repeat match goal with
         | t : Z |- _ =>
             lazymatch goal with
             | _ : 0 <= inject_Z t |- _ => fail
             | _ => idtac
             end;
             assert (0 <= inject_Z t) by (apply Znonneg_Q; lra)
         end.

Lemma indicatorChannels_raw_range (indicator : Indicator) (v : Q)
    (palette : PaletteType) :
  0 <= v <= 1 ->
  exists r g b : Z,
    indicatorChannels_raw indicator v palette = (r, g, b)
    /\ (0 <= r <= 255)%Z /\ (0 <= g <= 255)%Z /\ (0 <= b <= 255)%Z.
Proof.
  intros [H0 H1]. unfold indicatorChannels_raw, Math_floor.
  destruct (String.eqb (Indicators.id indicator) "gdp"
            || bool_decide (category indicator = growth));
    [| destruct (String.eqb (Indicators.id indicator) "infl"
                 || String.eqb (Indicators.id indicator) "inflation_vol"
                 || bool_decide (category indicator = stability));
       [| destruct (String.eqb (Indicators.id indicator) "gini"
                    || bool_decide (category indicator = social))]];
    destruct palette;
    change (bool_decide (Neutral = Vibrant)) with false;
    change (bool_decide (Vibrant = Vibrant)) with true;
    change (bool_decide (Monochrome = Vibrant)) with false;
    cbv beta iota zeta;
    do 3 eexists; (split; [reflexivity |]);
    change (inject_Z 0) with 0; change (inject_Z 255) with 255;
    change (inject_Z 200) with 200;
    floor_facts; floor_nonneg;
    (split; [| split]); try lia;
    (apply Zbetween_Q;
     change (inject_Z 0) with 0; change (inject_Z 255) with 255; lra).
Qed.





(** X6. For a value within [0,1] every channel lies within 0..255 before
    the final clamp, which therefore changes nothing; under the Monochrome
    palette the three channels are equal. *)
Theorem indicatorChannels_clamp_idle (indicator : Indicator) (v : Q)
    (palette : PaletteType) :
  0 <= v <= 1 ->
  indicatorChannels indicator v palette
  = indicatorChannels_raw indicator v palette
  /\ (palette = Monochrome ->
      exists gray : Z,
        (0 <= gray <= 255)%Z
        /\ indicatorChannels indicator v palette = (gray, gray, gray)).
Proof.
  intros Hv.
  destruct (indicatorChannels_raw_range indicator v palette Hv)
    as (r & g & b & E & Hr & Hg & Hb).
  assert (Heq : indicatorChannels indicator v palette = (r, g, b)).
  { unfold indicatorChannels. rewrite E. f_equal; [f_equal |]; lia. }
  split; [now rewrite Heq, E |].
  intros ->. rewrite Heq. unfold indicatorChannels_raw in E.
  destruct (if (_ || _)%bool then _ else _) as [[r0 g0] b0] in E.
  cbv beta iota zeta in E. injection E as <- <- <-.
  eexists. split; [exact Hr | reflexivity].
Qed.

Lemma indicatorChannels_clamp_idle_witness :
  indicatorChannels (gdp 2.5) 0.5 Monochrome
  = indicatorChannels_raw (gdp 2.5) 0.5 Monochrome
  /\ (Monochrome = Monochrome ->
      exists gray : Z,
        (0 <= gray <= 255)%Z
        /\ indicatorChannels (gdp 2.5) 0.5 Monochrome = (gray, gray, gray)).
Proof. apply (indicatorChannels_clamp_idle (gdp 2.5) 0.5 Monochrome). lra. Defined.

(** ** [getSortedIndicators] *)



Section ByMagnitude.

Local Abbreviation higher :=
  (fun a b : Indicator => normalizeIndicator b <= normalizeIndicator a).
Local Abbreviation cmp :=
  (fun a b : Indicator => normalizeIndicator b - normalizeIndicator a).




End ByMagnitude.



(** ** Unlocking tiers and resolving a point *)

Lemma unlocked_mono (c c' : Z) (region : Region) :
  (c <= c')%Z -> unlocked c region = true -> unlocked c' region = true.
Proof.
  unfold unlocked. intros Hc.
  destruct (Z.leb_spec c 3), (Z.leb_spec c' 3), (Z.leb_spec c 6),
    (Z.leb_spec c' 6); try lia; intros Hu; rewrite ?Hu; trivial.
Qed.

Lemma filter_sublist_impl {A} (p q : A -> bool) (l : list A) :
  (forall a, p a = true -> q a = true) ->
  List.filter p l `sublist_of` List.filter q l.
Proof.
  intros Hpq. induction l as [| a l IH]; [constructor |].
  cbn [List.filter]. destruct (p a) eqn:Ep.
  - rewrite (Hpq a Ep). now constructor.
  - destruct (q a); [now constructor | exact IH].
Qed.

(** X8. The unlocked regions grow with the indicator count: the regions
    at a count are, in catalog order, among those at any larger count and
    among the catalog; up to 3 they are exactly the primary tier, from 7 on
    the whole catalog; Background is unlocked at every count. *)
Theorem getUnlockedRegions_nested (c c' : Z) :
  ((c <= c')%Z ->
   getUnlockedRegions c `sublist_of` getUnlockedRegions c')
  /\ getUnlockedRegions c `sublist_of` FACE_REGIONS
  /\ ((c <= 3)%Z -> id <$> getUnlockedRegions c = primary_ids)
  /\ ((7 <= c)%Z -> getUnlockedRegions c = FACE_REGIONS)
  /\ Background ∈ id <$> getUnlockedRegions c.
Proof.
  split; [| split; [| split; [| split]]].
  - intros Hc. apply filter_sublist_impl. intros a. now apply unlocked_mono.
  - unfold getUnlockedRegions.
    rewrite <- (forallb_filter_id (fun _ => true) FACE_REGIONS) at 2
      by reflexivity.
    now apply filter_sublist_impl.
  - intros Hc. unfold getUnlockedRegions, primary_ids, unlocked.
    destruct (Z.leb_spec c 3); [reflexivity | lia].
  - intros Hc. unfold getUnlockedRegions, unlocked.
    destruct (Z.leb_spec c 3); [lia |]. destruct (Z.leb_spec c 6); [lia |].
    reflexivity.
  - unfold getUnlockedRegions, unlocked.
    destruct (Z.leb_spec c 3); [| destruct (Z.leb_spec c 6)];
      vm_compute; set_solver.
Qed.

Lemma getUnlockedRegions_nested_witness :
  getUnlockedRegions 2 `sublist_of` getUnlockedRegions 5
  /\ id <$> getUnlockedRegions 2 = primary_ids
  /\ getUnlockedRegions 9 = FACE_REGIONS.
Proof.
  pose proof (getUnlockedRegions_nested 2 5) as (H1 & _ & H3 & _).
  pose proof (getUnlockedRegions_nested 9 9) as (_ & _ & _ & H4 & _).
  split; [apply H1; lia |]. split; [apply H3; lia | apply H4; lia].
Defined.

Lemma insert_by_priority_sorted (a : Region) (l : list Region) :
  StronglySorted (fun r r' => (priority r' <= priority r)%Z) l ->
  StronglySorted (fun r r' => (priority r' <= priority r)%Z)
    (insert_by_priority a l).
Proof.
  induction 1 as [| b rest Hs IH Hall]; cbn [insert_by_priority].
  - repeat constructor.
  - destruct (Z.leb_spec (priority b - priority a) 0) as [E | E].
    + constructor; [now constructor |].
      constructor; [lia |].
      eapply Forall_impl; [exact Hall |]. cbv beta. intros c Hc. lia.
    + constructor; [exact IH |].
      rewrite (insert_by_priority_perm a rest).
      constructor; [lia | exact Hall].
Qed.

Lemma sort_by_priority_sorted (l : list Region) :
  StronglySorted (fun r r' => (priority r' <= priority r)%Z)
    (sort_by_priority l).
Proof.
  unfold sort_by_priority. induction l as [| a l IH]; cbn [foldr].
  - constructor.
  - now apply insert_by_priority_sorted.
Qed.

Lemma first_containing_highest (point : Point) (sorted : list Region) :
  StronglySorted (fun r r' => (priority r' <= priority r)%Z) sorted ->
  forall region,
    region ∈ sorted ->
    isPointInPolygon point (polygon region) = true ->
    exists winner,
      winner ∈ sorted
      /\ isPointInPolygon point (polygon winner) = true
      /\ id winner = first_containing point sorted
      /\ (priority region <= priority winner)%Z.
Proof.
  induction 1 as [| b rest Hs IH Hall]; intros region Hin Hc.
  - now apply elem_of_nil in Hin.
  - cbn [first_containing].
    destruct (isPointInPolygon point (polygon b)) eqn:Eb.
    + exists b. split; [left |]. split; [exact Eb |]. split; [reflexivity |].
      apply elem_of_cons in Hin. destruct Hin as [-> | Hin]; [lia |].
      rewrite Forall_forall in Hall. now apply Hall.
    + apply elem_of_cons in Hin. destruct Hin as [-> | Hin]; [congruence |].
      destruct (IH region Hin Hc) as (w & Hw & Hcw & Hid & Hp).
      exists w. split; [now right | auto].
Qed.

Lemma first_containing_none (point : Point) (sorted : list Region) :
  (forall region, region ∈ sorted ->
                  isPointInPolygon point (polygon region) = false) ->
  first_containing point sorted = Background.
Proof.
  induction sorted as [| b rest IH]; intros Hnone; [reflexivity |].
  cbn [first_containing]. rewrite (Hnone b) by left.
  apply IH. intros r Hr. apply Hnone. now right.
Qed.

(** X9. When some candidate region contains the point, [getRegionAt]
    returns the id of a candidate that contains it and whose priority is
    highest among the candidates containing it; when no candidate contains
    the point it returns [Background]. *)
Theorem getRegionAt_highest_priority
    (x0 y0 : Q) (indicatorCount : Z) (dynamicRegions : option (list Region)) :
  (forall region,
      region ∈ candidates indicatorCount dynamicRegions ->
      isPointInPolygon (pt x0 y0) (polygon region) = true ->
      exists winner,
        winner ∈ candidates indicatorCount dynamicRegions
        /\ isPointInPolygon (pt x0 y0) (polygon winner) = true
        /\ id winner = getRegionAt x0 y0 indicatorCount dynamicRegions
        /\ (priority region <= priority winner)%Z)
  /\ ((forall region,
          region ∈ candidates indicatorCount dynamicRegions ->
          isPointInPolygon (pt x0 y0) (polygon region) = false) ->
      getRegionAt x0 y0 indicatorCount dynamicRegions = Background).
Proof.
  unfold getRegionAt.
  set (cands := candidates indicatorCount dynamicRegions).
  split.
  - intros region Hin Hc.
    destruct (first_containing_highest (pt x0 y0) (sort_by_priority cands)
                (sort_by_priority_sorted cands) region)
      as (w & Hw & Hcw & Hid & Hp); trivial.
    { now rewrite sort_by_priority_perm. }
    exists w. split; [| auto]. now rewrite <- (sort_by_priority_perm cands).
  - intros Hnone. apply first_containing_none. intros r Hr.
    apply Hnone. now rewrite <- (sort_by_priority_perm cands).
Qed.

Lemma getRegionAt_highest_priority_witness :
  exists winner,
    winner ∈ candidates 3 (Some FACE_REGIONS)
    /\ isPointInPolygon (pt 0.5 0.95) (polygon winner) = true
    /\ id winner = getRegionAt 0.5 0.95 3 (Some FACE_REGIONS)
    /\ (priority
          {| id := Background; tier := primary; priority := 0;
             polygon := [pt 0 0; pt 1 0; pt 1 1; pt 0 1] |}
        <= priority winner)%Z.
Proof.
  apply (proj1 (getRegionAt_highest_priority 0.5 0.95 3 (Some FACE_REGIONS))).
  - unfold candidates, FACE_REGIONS. set_solver.
  - vm_compute. reflexivity.
Defined.

(** ** The ray cast: degenerate polygons, the bounding box, rectangles *)








Lemma rectangle_half_open (point : Point) (x0 x1 y0 y1 : Q) :
  x0 < x1 -> y0 < y1 ->
  (isPointInPolygon point [pt x0 y0; pt x1 y0; pt x1 y1; pt x0 y1] = true
   <-> x0 <= x point < x1 /\ y0 <= y point < y1).
Proof.
  intros Hx Hy.
  assert (I0 : intersect point (pt x0 y0) (pt x0 y1)
               = negb (Bool.eqb (ltb (y point) y0) (ltb (y point) y1))
                 && ltb (x point) x0).
  { unfold intersect, gtb. cbn [x y pt]. f_equal.
    apply ltb_proper; [reflexivity | field; lra]. }
  assert (I2 : intersect point (pt x1 y1) (pt x1 y0)
               = negb (Bool.eqb (ltb (y point) y1) (ltb (y point) y0))
                 && ltb (x point) x1).
  { unfold intersect, gtb. cbn [x y pt]. f_equal.
    apply ltb_proper; [reflexivity | field; lra]. }
  assert (I1 : intersect point (pt x1 y0) (pt x0 y0) = false).
  { unfold intersect, gtb. cbn [x y pt]. now destruct (ltb (y point) y0). }
  assert (I3 : intersect point (pt x0 y1) (pt x1 y1) = false).
  { unfold intersect, gtb. cbn [x y pt]. now destruct (ltb (y point) y1). }
  unfold isPointInPolygon. cbn [last ray_loop]. rewrite I0, I1, I2, I3.
  destruct (ltb_cases (y point) y0) as [[-> A] | [-> A]];
    destruct (ltb_cases (y point) y1) as [[-> B] | [-> B]];
    destruct (ltb_cases (x point) x0) as [[-> C] | [-> C]];
    destruct (ltb_cases (x point) x1) as [[-> D] | [-> D]];
    cbn [Bool.eqb negb andb];
    split; intros; try discriminate; try lra; trivial.
Qed.

(** X12. For an axis-parallel rectangle listed as top-left, top-right,
    bottom-right, bottom-left, the ray cast is the half-open box: a point
    is inside exactly when [x0 <= x < x1] and [y0 <= y < y1]. *)
Theorem isPointInPolygon_rectangle (point : Point) (x0 x1 y0 y1 : Q) :
  x0 < x1 -> y0 < y1 ->
  (isPointInPolygon point [pt x0 y0; pt x1 y0; pt x1 y1; pt x0 y1] = true
   <-> x0 <= x point < x1 /\ y0 <= y point < y1).
Proof. exact (rectangle_half_open point x0 x1 y0 y1). Qed.

Lemma isPointInPolygon_rectangle_witness :
  isPointInPolygon (pt 0 0) [pt 0 0; pt 1 0; pt 1 1; pt 0 1] = true.
Proof.
  apply (proj2 (isPointInPolygon_rectangle (pt 0 0) 0 1 0 1
                  ltac:(lra) ltac:(lra))).
  cbn [x y pt]. lra.
Defined.

(** ** The affine solve *)

Section AffineSolve.
Variables (width height : Q) (sRegion tRegion : Region).
Variables (p0 p1 p2 q0 q1 q2 : Point) (rest rest' : list Point).
Hypothesis Hid : id sRegion <> Background.
Hypothesis Hs : polygon sRegion = p0 :: p1 :: p2 :: rest.
Hypothesis Ht : polygon tRegion = q0 :: q1 :: q2 :: rest'.
Hypothesis Hdet : 0.001 <= Qabs (cross_px width height p0 p1 p2).


End AffineSolve.







(** ** [warpCaricature]: when it throws, and the shape of its drawing *)

Lemma warpRegion_None_iff (width height : Q) (sRegion : Region)
    (tRegion : option Region) :
  warpRegion width height sRegion tRegion = None
  <-> id sRegion <> Background
      /\ ~ (exists t, tRegion = Some t
                      /\ (3 <= length (polygon sRegion))%nat
                      /\ (3 <= length (polygon t))%nat).
Proof.
  unfold warpRegion.
  destruct (decide (id sRegion = Background)) as [E | E].
  { split; [discriminate | now intros [H _]]. }
  destruct tRegion as [t |]; cbn [mbind option_bind].
  2:{ split; [| reflexivity]. intros _. split; [exact E |].
      now intros (t & [=] & _). }
  destruct (polygon sRegion) as [| a0 [| a1 [| a2 ra]]];
    cbn [mbind option_bind lookup list_lookup length];
    try (split; [| reflexivity]; intros _; split; [exact E |];
         intros (t' & _ & Hl & _); lia).
  destruct (polygon t) as [| b0 [| b1 [| b2 rb]]] eqn:Et;
    cbn [mbind option_bind lookup list_lookup length];
    try (split; [| reflexivity]; intros _; split; [exact E |];
         intros (t' & [= <-] & _ & Hl); rewrite Et in Hl;
         cbn [length] in Hl; lia).
  split.
  - repeat match goal with
           | |- context [if ?c then _ else _] => destruct c
           end; discriminate.
  - intros [_ Hn]. exfalso. apply Hn. exists t.
    rewrite Et. cbn [length]. split; [reflexivity | lia].
Qed.

Lemma warp_each_None_iff (width height : Q) (sourceRegions : list Region)
    (targetRegions : list Region) :
  forall i : nat,
    warp_each width height i sourceRegions targetRegions = None
    <-> exists (k : nat) (s : Region),
          sourceRegions !! k = Some s
          /\ warpRegion width height s (targetRegions !! (i + k)%nat) = None.
Proof.
  induction sourceRegions as [| s0 rest IH]; intros i; cbn [warp_each].
  - split; [discriminate |]. now intros (k & s & Hk & _).
  - destruct (warpRegion width height s0 (targetRegions !! i)) as [calls |] eqn:E0;
      cbn [mbind option_bind].
    + destruct (warp_each width height (S i) rest targetRegions)
        as [later |] eqn:E1; cbn [mbind option_bind].
      * split; [discriminate |]. intros ([| k] & s & Hk & Hbad).
        -- injection Hk as <-. rewrite Nat.add_0_r in Hbad. congruence.
        -- cbn in Hk.
           enough (Hnone : warp_each width height (S i) rest targetRegions
                           = None) by congruence.
           apply IH. exists k, s. split; [exact Hk |].
           now replace (S i + k)%nat with (i + S k)%nat by lia.
      * split; [| reflexivity]. intros _.
        destruct (proj1 (IH (S i)) E1) as (k & s & Hk & Hbad).
        exists (S k), s. split; [exact Hk |].
        now replace (i + S k)%nat with (S i + k)%nat by lia.
    + split; [| reflexivity]. intros _. exists 0%nat, s0.
      split; [reflexivity |]. now rewrite Nat.add_0_r.
Qed.

Lemma warpCaricature_None_iff (width height : Q)
    (sourceRegions targetRegions : list Region) :
  warpCaricature width height sourceRegions targetRegions = None
  <-> exists (k : nat) (s : Region),
        sourceRegions !! k = Some s
        /\ id s <> Background
        /\ ~ (exists t, targetRegions !! k = Some t
                        /\ (3 <= length (polygon s))%nat
                        /\ (3 <= length (polygon t))%nat).
Proof.
  unfold warpCaricature.
  destruct (warp_each width height 0 sourceRegions targetRegions)
    as [calls |] eqn:E; cbn [mbind option_bind].
  - split; [discriminate |]. intros (k & s & Hk & Hbad).
    enough (Some calls = None) by discriminate.
    rewrite <- E. apply warp_each_None_iff. exists k, s.
    split; [exact Hk |]. now apply warpRegion_None_iff.
  - split; [| reflexivity]. intros _.
    destruct (proj1 (warp_each_None_iff _ _ _ _ 0%nat) E) as (k & s & Hk & Hbad).
    exists k, s. split; [exact Hk |].
    exact (proj1 (warpRegion_None_iff _ _ _ _) Hbad).
Qed.

(** X15. [warpCaricature] throws exactly when some non-Background source
    region has no target region at its index, or that source or its target
    has fewer than three vertices; Background entries need no target. *)
Theorem warpCaricature_throws_iff (width height : Q)
    (sourceRegions targetRegions : list Region) :
  warpCaricature width height sourceRegions targetRegions = None
  <-> exists (k : nat) (s : Region),
        sourceRegions !! k = Some s
        /\ id s <> Background
        /\ ~ (exists t, targetRegions !! k = Some t
                        /\ (3 <= length (polygon s))%nat
                        /\ (3 <= length (polygon t))%nat).
Proof. exact (warpCaricature_None_iff width height sourceRegions targetRegions). Qed.

Lemma clipPath_plain (width height : Q) (polygon : list Point) :
  forall (j : nat) (f : CanvasCall -> bool),
    f (moveTo 0 0) = false -> f (lineTo 0 0) = false ->
    (forall a b c d, f (moveTo a b) = f (moveTo c d)) ->
    (forall a b c d, f (lineTo a b) = f (lineTo c d)) ->
    List.filter f (clipPath width height j polygon) = [].
Proof.
  induction polygon as [| p rest IH]; intros j f Hm Hl Hm' Hl'; [reflexivity |].
  cbn [clipPath List.filter].
  destruct (decide (j = 0%nat));
    [rewrite (Hm' _ _ 0 0), Hm | rewrite (Hl' _ _ 0 0), Hl]; now apply IH.
Qed.

(** The four bracket counts of a call list: [save], [restore],
    [setTransform], [drawImage]. *)
Lemma warpRegion_counts (width height : Q) (sRegion : Region)
    (tRegion : option Region) (calls : list CanvasCall) :
  warpRegion width height sRegion tRegion = Some calls ->
  exists n : nat,
    (n <= if decide (id sRegion = Background) then 0 else 1)%nat
    /\ length (List.filter is_save calls) = n
    /\ length (List.filter is_restore calls) = n
    /\ length (List.filter is_setTransform calls) = n
    /\ length (List.filter is_drawImage calls) = n.
Proof.
  unfold warpRegion.
  destruct (decide (id sRegion = Background)) as [E | E].
  { intros [= <-]. exists 0%nat. auto. }
  destruct tRegion as [t |]; cbn [mbind option_bind]; [| discriminate].
  destruct (polygon sRegion !! 0%nat); cbn [mbind option_bind]; [| discriminate].
  destruct (polygon sRegion !! 1%nat); cbn [mbind option_bind]; [| discriminate].
  destruct (polygon sRegion !! 2%nat); cbn [mbind option_bind]; [| discriminate].
  destruct (polygon t !! 0%nat); cbn [mbind option_bind]; [| discriminate].
  destruct (polygon t !! 1%nat); cbn [mbind option_bind]; [| discriminate].
  destruct (polygon t !! 2%nat); cbn [mbind option_bind]; [| discriminate].
  repeat match goal with
         | |- context [if ?c then _ else _] => destruct c
         end;
    intros [= <-]; try (exists 0%nat; auto; fail).
  exists 1%nat. split; [lia |].
  cbn [app List.filter is_save is_restore is_setTransform is_drawImage].
  rewrite !List.filter_app.
  rewrite !(clipPath_plain width height (polygon t) 0) by reflexivity.
  repeat split; reflexivity.
Qed.

Lemma warp_each_counts (width height : Q) (sourceRegions : list Region)
    (targetRegions : list Region) :
  forall (i : nat) (calls : list CanvasCall),
    warp_each width height i sourceRegions targetRegions = Some calls ->
    exists n : nat,
      (n <= length (List.filter
                      (fun s => negb (bool_decide (id s = Background)))
                      sourceRegions))%nat
      /\ length (List.filter is_save calls) = n
      /\ length (List.filter is_restore calls) = n
      /\ length (List.filter is_setTransform calls) = n
      /\ length (List.filter is_drawImage calls) = n.
Proof.
  induction sourceRegions as [| s0 rest IH]; intros i calls; cbn [warp_each].
  - intros [= <-]. exists 0%nat. auto.
  - destruct (warpRegion width height s0 (targetRegions !! i))
      as [c0 |] eqn:E0; cbn [mbind option_bind]; [| discriminate].
    destruct (warp_each width height (S i) rest targetRegions)
      as [later |] eqn:E1; cbn [mbind option_bind]; [| discriminate].
    intros [= <-].
    destruct (warpRegion_counts _ _ _ _ _ E0) as (n0 & Hn0 & A1 & A2 & A3 & A4).
    destruct (IH _ _ E1) as (n1 & Hn1 & B1 & B2 & B3 & B4).
    exists (n0 + n1)%nat. rewrite !List.filter_app, !length_app.
    split; [| lia]. cbn [List.filter].
    destruct (decide (id s0 = Background)) as [Eb | Eb].
    + rewrite (bool_decide_eq_true_2 _ Eb). cbn [negb]. lia.
    + rewrite (bool_decide_eq_false_2 _ Eb). cbn [negb length]. lia.
Qed.

(** X16. Whenever [warpCaricature] completes, its drawing starts with the
    white fill of the whole canvas, and the numbers of [save], [restore],
    [setTransform] and [drawImage] calls are one and the same number, at
    most the number of non-Background source regions. *)
Theorem warpCaricature_balanced (width height : Q)
    (sourceRegions targetRegions : list Region) (calls : list CanvasCall) :
  warpCaricature width height sourceRegions targetRegions = Some calls ->
  head calls = Some (fillRect 0 0 width height)
  /\ exists n : nat,
       (n <= length (List.filter
                       (fun s => negb (bool_decide (id s = Background)))
                       sourceRegions))%nat
       /\ length (List.filter is_save calls) = n
       /\ length (List.filter is_restore calls) = n
       /\ length (List.filter is_setTransform calls) = n
       /\ length (List.filter is_drawImage calls) = n.
Proof.
  unfold warpCaricature.
  destruct (warp_each width height 0 sourceRegions targetRegions)
    as [cs |] eqn:E; cbn [mbind option_bind]; [| discriminate].
  intros [= <-]. split; [reflexivity |].
  destruct (warp_each_counts _ _ _ _ _ _ E) as (n & Hn & H1 & H2 & H3 & H4).
  exists n. cbn [List.filter is_save is_restore is_setTransform is_drawImage].
  auto.
Qed.

Lemma warpCaricature_balanced_witness :
  head [fillRect 0 0 512 512] = Some (fillRect 0 0 512 512)
  /\ exists n : nat,
       (n <= length (List.filter
                       (fun s => negb (bool_decide (id s = Background)))
                       [level]))%nat
       /\ length (List.filter is_save [fillRect 0 0 512 512]) = n
       /\ length (List.filter is_restore [fillRect 0 0 512 512]) = n
       /\ length (List.filter is_setTransform [fillRect 0 0 512 512]) = n
       /\ length (List.filter is_drawImage [fillRect 0 0 512 512]) = n.
Proof.
  apply (warpCaricature_balanced 512 512 [level] [forehead]).
  vm_compute. reflexivity.
Defined.

Lemma dynamicRegionOf_polygon_length `{Trig}
    (regionMap : RegionType -> option Indicator) (r : Region) :
  length (polygon (dynamicRegionOf regionMap r)) = length (polygon r).
Proof.
  unfold dynamicRegionOf. destruct (regionMap (id r)); [| reflexivity].
  cbn [polygon].
  destruct (distortion (id r) (normalizeIndicator i) (polygon r));
    [apply length_fmap | reflexivity].
Qed.

(** X17. The warp never throws on the pipeline's own input: for any region
    map, the dynamic regions that [getDynamicRegions] derives from the
    catalog are accepted by [warpCaricature] with the catalog as source. *)
Theorem warpCaricature_accepts_dynamic_regions `{Trig}
    (regionMap : RegionType -> option Indicator)
    (indicators : list Indicator) (h : heap) (face : loc) (width height : Q) :
  regionsAt h face = Some FACE_REGIONS ->
  exists (out : loc) (h' : heap) (dyn : list Region) (calls : list CanvasCall),
    getDynamicRegions face indicators regionMap h = Some (out, h')
    /\ regionsAt h' out = Some dyn
    /\ warpCaricature width height FACE_REGIONS dyn = Some calls.
Proof.
  intros Hface.
  destruct (getDynamicRegions_run regionMap h face indicators _ Hface)
    as (out & h' & Hrun & _ & _ & Hread).
  destruct (warpCaricature width height FACE_REGIONS
              (dynamicRegionOf regionMap <$> FACE_REGIONS))
    as [calls |] eqn:E.
  { exists out, h', (dynamicRegionOf regionMap <$> FACE_REGIONS), calls.
    auto. }
  exfalso. apply warpCaricature_None_iff in E.
  destruct E as (k & s & Hk & _ & Hbad). apply Hbad.
  exists (dynamicRegionOf regionMap s).
  rewrite list_lookup_fmap, Hk, dynamicRegionOf_polygon_length.
  split; [reflexivity |].
  assert (Hall : Forall (fun r => (3 <= length (polygon r))%nat) FACE_REGIONS)
    by (repeat constructor).
  rewrite Forall_forall in Hall.
  assert (Hin : s ∈ FACE_REGIONS) by (apply list_elem_of_lookup; eauto).
  split; now apply Hall.
Qed.

Lemma warpCaricature_accepts_dynamic_regions_witness :
  exists (out : loc) (h' : heap) (dyn : list Region) (calls : list CanvasCall),
    getDynamicRegions (H := small_angle) (fst loaded) [gdp 10] sample_map
      (snd loaded) = Some (out, h')
    /\ regionsAt h' out = Some dyn
    /\ warpCaricature 512 512 FACE_REGIONS dyn = Some calls.
Proof.
  apply (warpCaricature_accepts_dynamic_regions (H := small_angle)
           sample_map [gdp 10] (snd loaded) (fst loaded) 512 512).
  exact loaded_catalog.
Defined.

(** ** The region map: round-robin over the shuffled indicators *)

Lemma seededShuffle_run {T} (array : positive) (seed : Z)
    (s : gmap positive (list T)) (arr : list T) :
  s !! array = Some arr ->
  exists arr',
    arr' ≡ₚ arr
    /\ seededShuffle array seed s
       = Some (fresh (dom s), <[fresh (dom s) := arr']> s)
    /\ array <> fresh (dom s).
Proof.
  intros Harr.
  destruct (shuffle_loop_spec (length arr - 1) (createRNG seed) arr)
    as (arr' & Hperm & Hrun).
  { destruct arr; cbn [length]; lia. }
  exists arr'. split; [exact Hperm |]. split.
  - unfold seededShuffle. rewrite Harr. cbn [mbind option_bind].
    rewrite (Hrun _ (<[fresh (dom s) := arr]> s)) by apply lookup_insert_eq.
    cbn [mbind option_bind]. now rewrite insert_insert_eq.
  - intros E. assert (Hf : s !! fresh (dom s) = None)
      by apply not_elem_of_dom, is_fresh.
    rewrite <- E, Harr in Hf. discriminate.
Qed.

(** Over the catalog, the entry of the region at index [k] is the element
    [k mod n] of the shuffled list. *)
Lemma assign_catalog {T} (shuffled : list T) (k : nat) (region : Region) :
  FACE_REGIONS !! k = Some region ->
  assign_regions shuffled 0 FACE_REGIONS (fun _ => None) (id region)
  = match length shuffled with
    | O => None
    | n => shuffled !! (k mod n)%nat
    end.
Proof.
  intros Hk. unfold FACE_REGIONS in Hk.
  do 9 (destruct k as [| k]; [injection Hk as <-; reflexivity |]).
  discriminate.
Qed.

(** X18. With a photo and an indicator array, [regionMap] leaves the
    array as it is and assigns to the catalog region at index [k] the
    element [k mod n] of the shuffled indicators: every region gets one of
    the indicators, and with at most nine indicators every indicator is
    given to some region. With an empty array every entry is [undefined]. *)
Theorem regionMap_round_robin {T} (c : Z) (str : list Z)
    (indicators : positive) (seed : Z) (s : gmap positive (list T))
    (arr : list T) :
  s !! indicators = Some arr ->
  exists (map : RegionType -> option T) (s' : gmap positive (list T)),
    regionMap (Some (c :: str)) (Some indicators) seed s = Some (map, s')
    /\ s' !! indicators = Some arr
    /\ (arr = [] -> forall region, region ∈ FACE_REGIONS ->
                                   map (id region) = None)
    /\ (arr <> [] ->
        forall region, region ∈ FACE_REGIONS ->
                       exists ind, map (id region) = Some ind /\ ind ∈ arr)
    /\ ((length arr <= 9)%nat ->
        forall ind, ind ∈ arr ->
                    exists region,
                      region ∈ FACE_REGIONS /\ map (id region) = Some ind).
Proof.
  intros Harr.
  destruct (seededShuffle_run indicators seed s arr Harr)
    as (arr' & Hperm & Hrun & Hne).
  exists (assign_regions arr' 0 FACE_REGIONS (fun _ => None)),
    (<[fresh (dom s) := arr']> s).
  assert (Hlen : length arr' = length arr) by now rewrite Hperm.
  split; [| split; [| split; [| split]]].
  - unfold regionMap. rewrite Hrun. cbn [mbind option_bind].
    now rewrite lookup_insert_eq.
  - now rewrite lookup_insert_ne.
  - intros -> region Hin. apply list_elem_of_lookup in Hin as [k Hk].
    rewrite (assign_catalog arr' k region Hk), Hlen. reflexivity.
  - intros Hnil region Hin. apply list_elem_of_lookup in Hin as [k Hk].
    rewrite (assign_catalog arr' k region Hk).
    destruct (length arr') as [| n] eqn:En.
    { destruct arr; [contradiction | cbn in Hlen; lia]. }
    destruct (lookup_lt_is_Some_2 arr' (k mod S n)) as [ind Hind].
    { rewrite En. apply Nat.mod_upper_bound. lia. }
    exists ind. split; [exact Hind |].
    rewrite <- Hperm. apply list_elem_of_lookup. eauto.
  - intros H9 ind Hin. rewrite <- Hperm in Hin.
    apply list_elem_of_lookup in Hin as [j Hj].
    assert (Hjn : (j < length arr')%nat) by (eapply lookup_lt_Some; eauto).
    destruct (lookup_lt_is_Some_2 FACE_REGIONS j) as [region Hregion].
    { cbn [length FACE_REGIONS]. lia. }
    exists region. split; [apply list_elem_of_lookup; eauto |].
    rewrite (assign_catalog arr' j region Hregion).
    destruct (length arr') as [| n] eqn:En; [lia |].
    now rewrite Nat.mod_small by lia.
Qed.

Lemma regionMap_round_robin_witness :
  exists (map : RegionType -> option nat) (s' : gmap positive (list nat)),
    regionMap (Some (100%Z :: [97%Z])) (Some 1%positive) 7
      {[ 1%positive := [10; 20; 30]%nat ]} = Some (map, s')
    /\ s' !! 1%positive = Some [10; 20; 30]%nat
    /\ ([10; 20; 30]%nat = [] ->
        forall region, region ∈ FACE_REGIONS -> map (id region) = None)
    /\ ([10; 20; 30]%nat <> [] ->
        forall region, region ∈ FACE_REGIONS ->
                       exists ind, map (id region) = Some ind
                                   /\ ind ∈ [10; 20; 30]%nat)
    /\ ((length [10; 20; 30]%nat <= 9)%nat ->
        forall ind, ind ∈ [10; 20; 30]%nat ->
                    exists region,
                      region ∈ FACE_REGIONS /\ map (id region) = Some ind).
Proof.
  apply (regionMap_round_robin 100 [97%Z] 1%positive 7
           {[ 1%positive := [10; 20; 30]%nat ]} [10; 20; 30]%nat).
  apply lookup_singleton_eq.
Defined.

(** ** Where the seeds of [generateClippedSeeds] lie *)

Lemma jitter_range (r magnitude : Q) :
  0 <= r < 1 -> 0 <= magnitude ->
  - (magnitude * 0.05) <= (r - 0.5) * magnitude * 0.1 <= magnitude * 0.05.
Proof.
  intros [H0 H1] Hm.
  assert (P1 : 0 <= r * magnitude) by (apply Qmult_le_0_compat; lra).
  assert (P2 : 0 <= (1 - r) * magnitude) by (apply Qmult_le_0_compat; lra).
  split; lra.
Qed.

Lemma seeds_loop_from (count : Z) (polygon : list Point) (bounds : Bounds)
    (magnitude : Q) (maxAttempts : Z) (fuel : nat) :
  0 <= magnitude ->
  forall (rng : Z) (points : list Point) (attempts : Z) points' attempts',
    Forall (seed_from polygon bounds magnitude) points ->
    seeds_loop fuel count polygon bounds magnitude maxAttempts rng points
      attempts = Some (points', attempts') ->
    Forall (seed_from polygon bounds magnitude) points'.
Proof.
  intros Hm.
  induction fuel as [| fuel IH];
    intros rng points attempts points' attempts' Hall; cbn [seeds_loop];
    destruct ((Z.of_nat (length points) <? count)
              && (attempts <? maxAttempts))%Z;
    try discriminate; try (now intros [= <- <-]).
  pose proof (rng_call_range rng) as Hx.
  destruct (rng_call rng) as [x0 rng1]. cbn [fst] in Hx.
  pose proof (rng_call_range rng1) as Hy.
  destruct (rng_call rng1) as [y0 rng2]. cbn [fst] in Hy.
  destruct (isPointInPolygon (pt x0 y0) polygon) eqn:Hin; [| now apply IH].
  pose proof (rng_call_range rng2) as H1.
  destruct (rng_call rng2) as [r1 rng3]. cbn [fst] in H1.
  pose proof (rng_call_range rng3) as H2.
  destruct (rng_call rng3) as [r2 rng4]. cbn [fst] in H2.
  apply IH. apply Forall_app. split; [exact Hall |].
  constructor; [| constructor].
  exists (pt x0 y0), ((r1 - 0.5) * magnitude * 0.1),
    ((r2 - 0.5) * magnitude * 0.1).
  split; [exact Hin |]. split; [exact Hx |]. split; [exact Hy |].
  split; [now apply jitter_range |]. split; [now apply jitter_range |].
  reflexivity.
Qed.

(** X19. With a non-negative magnitude, every seed that
    [generateClippedSeeds] returns is a candidate of the unit square that
    the polygon accepted, displaced by at most [magnitude * 0.05] on each
    axis and scaled by the bounds; with non-negative bounds it therefore
    lies within the canvas widened by that margin. *)
Theorem generateClippedSeeds_provenance (fuel : nat) (count : Z)
    (polygon : list Point) (bounds : Bounds) (seed : Z) (magnitude : Q)
    (points : list Point) :
  0 <= magnitude ->
  generateClippedSeeds fuel count polygon bounds seed magnitude = Some points ->
  Forall (seed_from polygon bounds magnitude) points
  /\ (0 <= width bounds -> 0 <= height bounds ->
      Forall (fun p =>
                - (magnitude * 0.05) * width bounds <= x p
                  <= (1 + magnitude * 0.05) * width bounds
                /\ - (magnitude * 0.05) * height bounds <= y p
                   <= (1 + magnitude * 0.05) * height bounds) points).
Proof.
  intros Hm. unfold generateClippedSeeds.
  destruct (seeds_loop fuel count polygon bounds magnitude (count * 5)
              (createRNG seed) [] 0) as [[ps attempts] |] eqn:E;
    [| discriminate].
  cbn. intros [= <-].
  assert (Hall : Forall (seed_from polygon bounds magnitude) ps).
  { eapply seeds_loop_from; [exact Hm | constructor | exact E]. }
  split; [exact Hall |]. intros Hw Hh.
  eapply Forall_impl; [exact Hall |]. cbv beta.
  intros p (c & jx & jy & _ & Hx & Hy & Hjx & Hjy & ->). cbn [x y pt].
  assert (A1 : (x c + jx) * width bounds
               - - (magnitude * 0.05) * width bounds
               == (x c + jx + magnitude * 0.05) * width bounds) by ring.
  assert (A2 : (1 + magnitude * 0.05) * width bounds
               - (x c + jx) * width bounds
               == (1 + magnitude * 0.05 - x c - jx) * width bounds) by ring.
  assert (B1 : (y c + jy) * height bounds
               - - (magnitude * 0.05) * height bounds
               == (y c + jy + magnitude * 0.05) * height bounds) by ring.
  assert (B2 : (1 + magnitude * 0.05) * height bounds
               - (y c + jy) * height bounds
               == (1 + magnitude * 0.05 - y c - jy) * height bounds) by ring.
  assert (P1 : 0 <= (x c + jx + magnitude * 0.05) * width bounds)
    by (apply Qmult_le_0_compat; lra).
  assert (P2 : 0 <= (1 + magnitude * 0.05 - x c - jx) * width bounds)
    by (apply Qmult_le_0_compat; lra).
  assert (P3 : 0 <= (y c + jy + magnitude * 0.05) * height bounds)
    by (apply Qmult_le_0_compat; lra).
  assert (P4 : 0 <= (1 + magnitude * 0.05 - y c - jy) * height bounds)
    by (apply Qmult_le_0_compat; lra).
  repeat split; lra.
Qed.

Lemma generateClippedSeeds_provenance_witness :
  Forall (seed_from [pt 0 0; pt 1 0; pt 1 1; pt 0 1]
            {| width := 512; height := 512 |} 0.5)
    (default [] (generateClippedSeeds 10 2 [pt 0 0; pt 1 0; pt 1 1; pt 0 1]
                   {| width := 512; height := 512 |} 42 0.5)).
Proof.
  apply (generateClippedSeeds_provenance 10 2 [pt 0 0; pt 1 0; pt 1 1; pt 0 1]
           {| width := 512; height := 512 |} 42 0.5); [lra |].
  vm_compute. reflexivity.
Defined.

(** ** State updates of the controls and of the snapshot list *)

(** X20. Moving a slider keeps the number and order of the indicators and
    everything about them except [current], which becomes the new value
    for each indicator of the given id; with no indicator of that id the
    list is unchanged. *)
Theorem handleSliderChange_updates_current
    (indicators : list Indicator) (key : string) (value : Q) :
  Forall2 (fun a b =>
             Indicators.id b = Indicators.id a /\ name b = name a
             /\ min b = min a /\ max b = max a /\ unit b = unit a
             /\ category b = category a
             /\ current b = if String.eqb (Indicators.id a) key
                            then value else current a)
    indicators (Controls.handleSliderChange indicators key value)
  /\ ((forall a, a ∈ indicators -> Indicators.id a <> key) ->
      Controls.handleSliderChange indicators key value = indicators).
Proof.
  unfold Controls.handleSliderChange. split.
  - apply Forall2_fmap_r, Forall_Forall2_diag, Forall_forall.
    intros a _. unfold compose.
    destruct (String.eqb (Indicators.id a) key); repeat split; reflexivity.
  - intros Hnone. induction indicators as [| a l IH]; [reflexivity |].
    rewrite fmap_cons.
    destruct (String.eqb_spec (Indicators.id a) key) as [E | _].
    { exfalso. apply (Hnone a); [left | exact E]. }
    f_equal. apply IH. intros b Hb. apply Hnone. now right.
Qed.

Lemma handleSliderChange_updates_current_witness :
  Controls.handleSliderChange [gdp 2.5; flat 7] "sentiment" 80
  = [gdp 2.5; flat 7].
Proof.
  apply (proj2 (handleSliderChange_updates_current [gdp 2.5; flat 7]
                  "sentiment" 80)).
  intros a Ha.
  repeat (apply elem_of_cons in Ha; destruct Ha as [-> | Ha];
          [discriminate |]).
  now apply elem_of_nil in Ha.
Defined.

Lemma tail_drop {A} (n : nat) (l : list A) : tail (drop n l) = drop (S n) l.
Proof.
  revert l. induction n as [| n IH]; intros [| a l]; try reflexivity.
  cbn [drop]. apply IH.
Qed.

Lemma capture_short {A} (prev : list A) (newSnap : A) :
  (length prev < 5)%nat -> App.capture prev newSnap = prev ++ [newSnap].
Proof.
  intros H. unfold App.capture. rewrite length_app. cbn [length].
  destruct (Nat.ltb_spec 5 (length prev + 1)); [lia | reflexivity].
Qed.

Lemma capture_full {A} (prev : list A) (newSnap : A) :
  (5 <= length prev)%nat ->
  App.capture prev newSnap = tail prev ++ [newSnap].
Proof.
  intros H. unfold App.capture. rewrite length_app. cbn [length].
  destruct (Nat.ltb_spec 5 (length prev + 1)); [| lia].
  destruct prev; [cbn in H; lia | reflexivity].
Qed.

(** X21. Started from no snapshots, any sequence of captures leaves the
    list holding the last five captured snapshots, oldest first (all of
    them while there are at most five). *)
Theorem capture_keeps_last_five {A} (snaps : list A) :
  fold_left App.capture snaps [] = drop (length snaps - 5) snaps
  /\ (length (fold_left App.capture snaps []) <= 5)%nat.
Proof.
  assert (E : fold_left App.capture snaps []
              = drop (length snaps - 5) snaps).
  { induction snaps as [| s snaps IH] using rev_ind; [reflexivity |].
    rewrite fold_left_app. cbn [fold_left]. rewrite IH, length_app.
    cbn [length].
    destruct (le_lt_dec 5 (length snaps)) as [Hge | Hlt].
    - rewrite capture_full by (rewrite length_drop; lia).
      replace (length snaps + 1 - 5)%nat with (S (length snaps - 5))%nat
        by lia.
      rewrite drop_app_le by lia. f_equal. apply tail_drop.
    - rewrite capture_short by (rewrite length_drop; lia).
      replace (length snaps - 5)%nat with 0%nat by lia.
      replace (length snaps + 1 - 5)%nat with 0%nat by lia.
      reflexivity. }
  split; [exact E |]. rewrite E, length_drop. lia.
Qed.

(** ** The canvas size of [downscaleImage] *)

Lemma scaled_side_bounds (short long maxDim : Q) :
  0 < maxDim -> 0 <= short -> short <= long -> maxDim < long ->
  0 <= short * (maxDim / long) <= maxDim.
Proof.
  intros Hm H0 Hle Hlong.
  assert (Hl : 0 < long) by lra.
  assert (E : short * (maxDim / long) == short * maxDim / long)
    by (field; lra).
  rewrite E. split.
  - apply Qle_shift_div_l; [exact Hl |].
    assert (0 <= short * maxDim) by (apply Qmult_le_0_compat; lra). lra.
  - apply Qle_shift_div_r; [exact Hl |].
    assert (0 <= (long - short) * maxDim) by (apply Qmult_le_0_compat; lra).
    lra.
Qed.

(** X22. For an image of non-negative size and a positive [maxDim], both
    sides of the canvas lie between 0 and [floor(maxDim)]; an image within
    [maxDim] on both sides keeps its size (rounded down), and one that
    exceeds it gets its longer side set to [floor(maxDim)]. *)
Theorem downscaleImage_size_bounded (width height maxDim : Q) :
  0 < maxDim -> 0 <= width -> 0 <= height ->
  let '(w, h) := downscaleImage_size width height maxDim in
  (0 <= w <= Qfloor maxDim)%Z /\ (0 <= h <= Qfloor maxDim)%Z
  /\ (width <= maxDim -> height <= maxDim ->
      w = Qfloor width /\ h = Qfloor height)
  /\ (maxDim < width -> height < width -> w = Qfloor maxDim)
  /\ (maxDim < height -> width <= height -> h = Qfloor maxDim).
Proof.
  intros Hm Hw Hh. unfold downscaleImage_size, gtb, Math_floor.
  assert (F0 : forall v, 0 <= v -> (0 <= Qfloor v)%Z)
    by (intros v Hv; apply floor_above; exact Hv).
  destruct (ltb_cases height width) as [[-> A] | [-> A]].
  - destruct (ltb_cases maxDim width) as [[-> B] | [-> B]].
    + destruct (scaled_side_bounds height width maxDim) as [S0 S1]; try lra.
      repeat split; try (apply F0; lra); try (apply Qfloor_resp_le; lra);
        intros; try lra; reflexivity.
    + repeat split; try (apply F0; lra); try (apply Qfloor_resp_le; lra);
        intros; try lra; reflexivity.
  - destruct (ltb_cases maxDim height) as [[-> B] | [-> B]].
    + destruct (scaled_side_bounds width height maxDim) as [S0 S1]; try lra.
      repeat split; try (apply F0; lra); try (apply Qfloor_resp_le; lra);
        intros; try lra; reflexivity.
    + repeat split; try (apply F0; lra); try (apply Qfloor_resp_le; lra);
        intros; try lra; reflexivity.
Qed.

Lemma downscaleImage_size_bounded_witness :
  let '(w, h) := downscaleImage_size 4000 3000 1024 in
  (0 <= w <= Qfloor 1024)%Z /\ (0 <= h <= Qfloor 1024)%Z
  /\ (4000 <= 1024 -> 3000 <= 1024 -> w = Qfloor 4000 /\ h = Qfloor 3000)
  /\ (1024 < 4000 -> 3000 < 4000 -> w = Qfloor 1024)
  /\ (1024 < 3000 -> 4000 <= 3000 -> h = Qfloor 1024).
Proof.
  apply (downscaleImage_size_bounded 4000 3000 1024); lra.
Defined.

(** ** Which derived regions are the templates themselves *)

Section Aliasing.
Context `{Trig}.
Variable regionMap : RegionType -> option Indicator.

Lemma dynamicRegion_unassigned (h : heap) (region : loc) (r : Region) :
  regionAt h region = Some r -> regionMap (id r) = None ->
  dynamicRegion regionMap region h = Some (region, h).
Proof.
  unfold regionAt. intros Hr Hmap.
  destruct (h !! region) as [[| | ro] |] eqn:Hreg; try discriminate.
  apply bind_Some in Hr. destruct Hr as (pts & _ & [= <-]).
  cbn [id] in Hmap.
  unfold dynamicRegion. rewrite bind_run. unfold loadRegion.
  now rewrite Hreg, Hmap.
Qed.

Lemma dynamicRegions_alias (ls : list loc) :
  forall (h : heap) (rs : list Region),
    mapM (regionAt h) ls = Some rs ->
    exists (outs : list loc) (h' : heap),
      mapM (dynamicRegion regionMap) ls h = Some (outs, h')
      /\ length outs = length ls
      /\ (forall i l r,
             ls !! i = Some l -> rs !! i = Some r ->
             regionMap (id r) = None -> outs !! i = Some l)
      /\ ((forall rid, regionMap rid = None) -> outs = ls /\ h' = h).
Proof.
  induction ls as [| l ls IH]; intros h rs Hrs.
  - exists [], h. rewrite mapM_nil_run. repeat split; auto.
  - apply mapM_Some in Hrs. inversion Hrs as [| ? r ? rs' Hl Hrest]; subst.
    apply mapM_Some in Hrest.
    destruct (dynamicRegion_run regionMap h l r Hl)
      as (l' & h1 & Hrun1 & Hsub1 & _).
    destruct (IH h1 rs' (regions_mono _ _ _ _ Hsub1 Hrest))
      as (outs & h' & Hrun & Hlen & Hal & Hall).
    exists (l' :: outs), h'. split; [| split; [| split]].
    + now rewrite mapM_cons_run, Hrun1, Hrun.
    + cbn [length]. now rewrite Hlen.
    + intros [| i] l0 r0 Hl0 Hr0 Hmap.
      * injection Hl0 as <-. injection Hr0 as <-.
        rewrite (dynamicRegion_unassigned h l r Hl Hmap) in Hrun1.
        now injection Hrun1 as <- _.
      * cbn in Hl0, Hr0. cbn. eapply Hal; eauto.
    + intros Hnone. destruct (Hall Hnone) as [-> ->].
      rewrite (dynamicRegion_unassigned h l r Hl (Hnone _)) in Hrun1.
      now injection Hrun1 as <- <-.
Qed.

End Aliasing.

(** X23. A template whose id has no indicator in the region map is
    returned by [getDynamicRegions] as the very same object, at the same
    index; with an empty region map the call allocates nothing but the
    result array, whose elements are the templates. *)
Theorem getDynamicRegions_aliases_unassigned `{Trig}
    (regionMap : RegionType -> option Indicator)
    (indicators : list Indicator) (h : heap) (face : loc) :
  regionsAt h face = Some FACE_REGIONS ->
  exists (out : loc) (h' : heap) (ls outs : list loc),
    getDynamicRegions face indicators regionMap h = Some (out, h')
    /\ arrayAt h face = Some ls
    /\ arrayAt h' out = Some outs
    /\ length outs = length ls
    /\ (forall i l r,
           ls !! i = Some l -> FACE_REGIONS !! i = Some r ->
           regionMap (id r) = None -> outs !! i = Some l)
    /\ ((forall rid, regionMap rid = None) ->
        outs = ls /\ h' = <[out := OArray ls]> h /\ h !! out = None).
Proof.
  unfold regionsAt. rewrite bind_Some. intros (ls & Hls & Hrs).
  destruct (dynamicRegions_alias regionMap ls h _ Hrs)
    as (outs & h1 & Hrun & Hlen & Hal & Hall).
  exists (fresh (dom h1)), (<[fresh (dom h1) := OArray outs]> h1), ls, outs.
  split; [| split; [| split; [| split; [| split]]]]; trivial.
  - unfold getDynamicRegions, arrayMap.
    now rewrite bind_run, (loadArray_run _ _ _ Hls), bind_run, Hrun, alloc_run.
  - unfold arrayAt. now rewrite lookup_insert_eq.
  - intros Hnone. destruct (Hall Hnone) as [-> ->].
    repeat split. apply fresh_None.
Qed.

Lemma getDynamicRegions_aliases_unassigned_witness :
  exists (out : loc) (h' : heap) (ls outs : list loc),
    getDynamicRegions (H := small_angle) (fst loaded) [] (fun _ => None)
      (snd loaded) = Some (out, h')
    /\ arrayAt (snd loaded) (fst loaded) = Some ls
    /\ arrayAt h' out = Some outs
    /\ length outs = length ls
    /\ (forall i l r,
           ls !! i = Some l -> FACE_REGIONS !! i = Some r ->
           (fun _ : RegionType => @None Indicator) (id r) = None ->
           outs !! i = Some l)
    /\ ((forall rid : RegionType, @None Indicator = None) ->
        outs = ls /\ h' = <[out := OArray ls]> (snd loaded)
        /\ snd loaded !! out = None).
Proof.
  apply (getDynamicRegions_aliases_unassigned (H := small_angle)
           (fun _ => None) [] (snd loaded) (fst loaded)).
  exact loaded_catalog.
Defined.

(** ** The distortions at the neutral magnitude, and the Mouth centroid *)

(** X24. At magnitude 0.5 the Forehead, Mouth and Chin distortions move no
    vertex, whatever the polygon: a region mapped to an indicator of
    magnitude 0.5 (for one, an indicator with a degenerate range) keeps
    its template polygon. *)
Theorem distortion_neutral_at_half `{Trig}
    (regionMap : RegionType -> option Indicator) (r : Region)
    (indicator : Indicator) :
  regionMap (id r) = Some indicator ->
  normalizeIndicator indicator == 0.5 ->
  id r = Forehead \/ id r = Mouth \/ id r = Chin ->
  Forall2 same_point (polygon (dynamicRegionOf regionMap r)) (polygon r)
  /\ (max indicator <= min indicator -> normalizeIndicator indicator == 0.5).
Proof.
  intros Hmap Hm Hid. split.
  2:{ intros Hd. unfold normalizeIndicator.
      apply leb_le in Hd. now rewrite Hd. }
  unfold dynamicRegionOf. rewrite Hmap. cbn [polygon].
  set (m := normalizeIndicator indicator) in *.
  assert (Hcb : forall cb : Point -> Point,
             (forall p, same_point (cb p) p) ->
             Forall2 same_point (cb <$> polygon r) (polygon r)).
  { intros cb Hcb. apply Forall2_fmap_l, Forall_Forall2_diag, Forall_forall.
    intros p _. apply Hcb. }
  destruct Hid as [-> | [-> | ->]]; unfold distortion.
  - apply Hcb. intros p. unfold same_point, forehead_cb. cbn [x y].
    split; [reflexivity |]. rewrite Hm. ring.
  - apply Hcb. intros p. unfold same_point, mouth_cb. cbn [x y].
    split; rewrite Hm; ring.
  - assert (E : gtb m 0.5 = false) by (apply ltb_ge; rewrite Hm; lra).
    rewrite E. apply Hcb. intros p. unfold same_point, chin_cb. cbn [x y].
    split; [| reflexivity]. rewrite Hm. ring.
Qed.

Lemma distortion_neutral_at_half_witness :
  Forall2 same_point
    (polygon (dynamicRegionOf (H := small_angle)
                (fun _ => Some (flat 7)) forehead))
    (polygon forehead).
Proof.
  apply (proj1 (distortion_neutral_at_half (H := small_angle)
                  (fun _ => Some (flat 7)) forehead (flat 7)
                  eq_refl ltac:(reflexivity) (or_introl eq_refl))).
Defined.





(** ** The tilt of Eyes and Cheeks *)



(** ** Every pixel resolves to a region that contains it *)

Lemma background_unlocked (indicatorCount : Z) :
  {| id := Background; tier := primary; priority := 0;
     polygon := [pt 0 0; pt 1 0; pt 1 1; pt 0 1] |}
    ∈ getUnlockedRegions indicatorCount.
Proof.
  unfold getUnlockedRegions. apply list_elem_of_In, filter_In. split.
  - apply list_elem_of_In. unfold FACE_REGIONS. do 4 right. left.
  - unfold unlocked. cbn [tier].
    destruct (indicatorCount <=? 3)%Z; [reflexivity |].
    destruct (indicatorCount <=? 6)%Z; reflexivity.
Qed.

(** X27. Without dynamic regions, for every point of the half-open unit
    square (every pixel, normalised) and every indicator count, the id
    that [getRegionAt] returns is that of an unlocked region whose polygon
    contains the point: the final default is never what decides. *)
Theorem getRegionAt_pixel_contained (x0 y0 : Q) (indicatorCount : Z) :
  0 <= x0 < 1 -> 0 <= y0 < 1 ->
  exists region,
    region ∈ getUnlockedRegions indicatorCount
    /\ id region = getRegionAt x0 y0 indicatorCount None
    /\ isPointInPolygon (pt x0 y0) (polygon region) = true.
Proof.
  intros Hx Hy. unfold getRegionAt, candidates.
  set (bg := {| id := Background; tier := primary; priority := 0;
                polygon := [pt 0 0; pt 1 0; pt 1 1; pt 0 1] |}).
  destruct (first_containing_highest (pt x0 y0)
              (sort_by_priority (getUnlockedRegions indicatorCount))
              (sort_by_priority_sorted _) bg)
    as (w & Hw & Hcw & Hidw & _).
  - rewrite sort_by_priority_perm. apply background_unlocked.
  - apply (proj2 (rectangle_half_open (pt x0 y0) 0 1 0 1
                    ltac:(lra) ltac:(lra))).
    cbn [x y pt]. lra.
  - exists w. split; [| split; trivial].
    now rewrite <- (sort_by_priority_perm _).
Qed.

Lemma getRegionAt_pixel_contained_witness :
  exists region,
    region ∈ getUnlockedRegions 4
    /\ id region = getRegionAt 0.5 0.8 4 None
    /\ isPointInPolygon (pt 0.5 0.8) (polygon region) = true.
Proof.
  apply (getRegionAt_pixel_contained 0.5 0.8 4); lra.
Defined.

(** ** Shuffling arrays of at most one element *)

(** X28. [seededShuffle] of an empty or one-element array returns a fresh
    array with the same content, whatever the seed, and leaves the input
    array in place. *)
Theorem seededShuffle_short {T} (array : positive) (seed : Z)
    (s : gmap positive (list T)) (arr : list T) :
  s !! array = Some arr -> (length arr <= 1)%nat ->
  exists (result : positive) (s' : gmap positive (list T)),
    seededShuffle array seed s = Some (result, s')
    /\ result <> array
    /\ s' !! result = Some arr
    /\ s' !! array = Some arr.
Proof.
  intros Harr Hlen.
  destruct (seededShuffle_run array seed s arr Harr)
    as (arr' & Hperm & Hrun & Hne).
  assert (E : arr' = arr).
  { destruct arr as [| a [| b arr]]; cbn [length] in Hlen; try lia.
    - now apply Permutation_nil_r in Hperm.
    - now apply Permutation_singleton_r in Hperm. }
  subst arr'. eexists _, _. split; [exact Hrun |].
  split; [congruence |]. split; [apply lookup_insert_eq |].
  now rewrite lookup_insert_ne.
Qed.

Lemma seededShuffle_short_witness :
  exists (result : positive) (s' : gmap positive (list nat)),
    seededShuffle 1%positive 99 {[ 1%positive := [5%nat] ]}
      = Some (result, s')
    /\ result <> 1%positive
    /\ s' !! result = Some [5%nat]
    /\ s' !! 1%positive = Some [5%nat].
Proof.
  apply (seededShuffle_short 1%positive 99 {[ 1%positive := [5%nat] ]}
           [5%nat]).
  - apply lookup_singleton_eq.
  - cbn. lia.
Defined.
